(** * Chess melee solver: a shallow embedding of [solver.ts]

    The TypeScript program keeps its pieces as objects with a mutable
    [position] field and passes references to them around (a [Capture]
    holds two such references).  The embedding keeps that structure: a
    store maps object references to piece records, a board is the array of
    references held in [Board.pieces], and the two global counters and the
    console are part of the program state. *)

From Stdlib Require Import ZArith List String Ascii Bool Lia DecimalString.
Import ListNotations.
Local Open Scope string_scope.
Local Open Scope list_scope.
Local Open Scope Z_scope.

(** ** Enumerations and records *)

Inductive PieceType := Bishop | King | Knight | Pawn | Queen | Rook.

Inductive Color := White | Black.

Inductive MoveType := Jump | Slide.

Module Move.
Record t := mk { directionX : Z; directionY : Z; type : MoveType }.
End Move.

Module Piece.
(** The fields of a [Piece] object.  The field [moveOptions] is assigned
    once, in the constructor, from [type] and [color]; it is the function
    [moveOptions] below. *)
Record t := mk { type : PieceType; color : Color; position : string }.
End Piece.

Definition Color_eqb (a b : Color) : bool :=
  match a, b with
  | White, White | Black, Black => true
  | _, _ => false
  end.

(** ** JavaScript numbers that may be NaN

    [start.charCodeAt(0)] and [parseInt(start.charAt(1))] are NaN on
    strings that are too short or carry no digit; [None] stands for NaN.
    Arithmetic propagates NaN and every comparison with NaN is false. *)

Definition jsNumber := option Z.

Definition jsAdd (a : jsNumber) (b : Z) : jsNumber := option_map (fun v => v + b) a.

Definition jsLt (a : jsNumber) (b : Z) : bool :=
  match a with Some v => v <? b | None => false end.

Definition jsGt (a : jsNumber) (b : Z) : bool :=
  match a with Some v => b <? v | None => false end.

(** [start.charCodeAt(0)] *)
Definition charCodeAt0 (s : string) : jsNumber :=
  match s with
  | EmptyString => None
  | String c _ => Some (Z.of_nat (nat_of_ascii c))
  end.

(** [parseInt(start.charAt(1))]: the argument is at most one character
    long, so the result is that character's value when it is a decimal
    digit and NaN otherwise. *)
Definition parseIntCharAt1 (s : string) : jsNumber :=
  match s with
  | String _ (String c _) =>
      let n := Z.of_nat (nat_of_ascii c) in
      if (48 <=? n) && (n <=? 57) then Some (n - 48) else None
  | _ => None
  end.

(** [String.fromCharCode(n)]; NaN is converted to the code unit 0.
    Characters are 8-bit here, which covers the codes 97..104 that reach
    this call with a number. *)
Definition fromCharCode (n : jsNumber) : string :=
  let code := match n with Some v => v mod 65536 | None => 0 end in
  String (ascii_of_nat (Z.to_nat code)) EmptyString.

(** Template-literal conversion [`${ y }`] of a number. *)
Definition numberToString (n : jsNumber) : string :=
  match n with
  | Some v => NilZero.string_of_int (Z.to_int v)
  | None => "NaN"
  end.

(** ** Coordinate codec *)

Definition calculatePosition (start : string) (move : Move.t) (multiplier : Z)
  : option string :=
  let x := charCodeAt0 start in
  let x := option_map (fun v => v - 96) x in
  let y := parseIntCharAt1 start in
  let x := jsAdd x (multiplier * Move.directionX move) in
  let y := jsAdd y (multiplier * Move.directionY move) in
  if jsLt x 1 || jsGt x 8 || jsLt y 1 || jsGt y 8 then None
  else Some (fromCharCode (jsAdd x 96) ++ numberToString y)%string.

(** The label of the square in file [x] and rank [y], as the [else] branch
    of [calculatePosition] builds it. *)
Definition encode (x y : Z) : string :=
  (fromCharCode (Some (x + 96)) ++ numberToString (Some y))%string.

(** The (x, y) pair that [calculatePosition] reads off a label. *)
Definition decode (label : string) : jsNumber * jsNumber :=
  (option_map (fun v => v - 96) (charCodeAt0 label), parseIntCharAt1 label).

Definition onBoard (x y : Z) : Prop := 1 <= x <= 8 /\ 1 <= y <= 8.

(** A valid algebraic label: a file letter a-h followed by a rank digit
    1-8, and nothing else. *)
Definition validLabel (label : string) : Prop :=
  exists f r : ascii,
    label = String f (String r EmptyString)
    /\ 97 <= Z.of_nat (nat_of_ascii f) <= 104
    /\ 49 <= Z.of_nat (nat_of_ascii r) <= 56.

Definition validLabelb (label : string) : bool :=
  match label with
  | String f (String r EmptyString) =>
      let a := Z.of_nat (nat_of_ascii f) in
      let b := Z.of_nat (nat_of_ascii r) in
      (97 <=? a) && (a <=? 104) && (49 <=? b) && (b <=? 56)
  | _ => false
  end.

(** ** Move tables

    The constructor of [Piece] chooses the table by piece type, and for a
    pawn also by color. *)

Definition moveOptions (type : PieceType) (color : Color) : list Move.t :=
  match type, color with
  | Bishop, _ =>
      [ Move.mk (-1) (-1) Slide; Move.mk (-1) 1 Slide;
        Move.mk 1 (-1) Slide; Move.mk 1 1 Slide ]
  | King, _ =>
      [ Move.mk (-1) (-1) Jump; Move.mk (-1) 0 Jump; Move.mk (-1) 1 Jump;
        Move.mk 0 (-1) Jump; Move.mk 0 1 Jump;
        Move.mk 1 (-1) Jump; Move.mk 1 0 Jump; Move.mk 1 1 Jump ]
  | Knight, _ =>
      [ Move.mk (-2) (-1) Jump; Move.mk (-2) 1 Jump;
        Move.mk (-1) (-2) Jump; Move.mk (-1) 2 Jump;
        Move.mk 1 (-2) Jump; Move.mk 1 2 Jump;
        Move.mk 2 (-1) Jump; Move.mk 2 1 Jump ]
  | Pawn, White =>
      [ Move.mk (-1) 1 Jump; Move.mk 1 1 Jump ]
  | Pawn, Black =>
      [ Move.mk (-1) (-1) Jump; Move.mk 1 (-1) Jump ]
  | Queen, _ =>
      [ Move.mk (-1) (-1) Slide; Move.mk (-1) 1 Slide;
        Move.mk 1 (-1) Slide; Move.mk 1 1 Slide;
        Move.mk (-1) 0 Slide; Move.mk 0 (-1) Slide;
        Move.mk 0 1 Slide; Move.mk 1 0 Slide ]
  | Rook, _ =>
      [ Move.mk (-1) 0 Slide; Move.mk 0 (-1) Slide;
        Move.mk 0 1 Slide; Move.mk 1 0 Slide ]
  end.

(** ** Objects and references

    A [loc] is a reference to a [Piece] object and a [Heap] gives the
    current fields of every object.  [Board.pieces] is an array of
    references; a [Capture] is a pair of references. *)

Definition loc := nat.
Bind Scope nat_scope with loc.

Definition Heap := loc -> Piece.t.

Definition Board := list loc.

Record Capture := mkCapture { attacker : loc; target : loc }.

(** [piece.position = position] *)
Definition setPosition (h : Heap) (piece : loc) (position : string) : Heap :=
  fun l =>
    if Nat.eqb l piece
    then Piece.mk (Piece.type (h l)) (Piece.color (h l)) position
    else h l.

(** ** Board.findPiece

    The [forEach] visits every piece and overwrites [result] at each
    match. *)

Definition findPiece (h : Heap) (pieces : Board) (position : string) : option loc :=
  fold_left
    (fun result piece =>
       if String.eqb (Piece.position (h piece)) position then Some piece else result)
    pieces None.

(** ** Piece.getPossibleCaptures *)

Section Captures.
Variable h : Heap.
Variable board : Board.
Variable this : loc.

(** The body of the [Jump] branch. *)
Definition jumpCaptures (move : Move.t) : list Capture :=
  match calculatePosition (Piece.position (h this)) move 1 with
  | Some newPosition =>
      match findPiece h board newPosition with
      | Some target =>
          if negb (Color_eqb (Piece.color (h target)) (Piece.color (h this)))
          then [mkCapture this target]
          else []
      | None => []
      end
  | None => []
  end.

(** The [for] loop of the [Slide] branch, from counter value [i], with
    [todo] iterations left before the counter exceeds 7.  A found piece
    ends the loop ([break]); an off-board step or an empty square lets it
    go on. *)
Fixpoint slideLoop (move : Move.t) (i : Z) (todo : nat) : list Capture :=
  match todo with
  | O => []
  | S todo' =>
      match calculatePosition (Piece.position (h this)) move i with
      | Some newPosition =>
          match findPiece h board newPosition with
          | Some target =>
              if negb (Color_eqb (Piece.color (h target)) (Piece.color (h this)))
              then [mkCapture this target]
              else []
          | None => slideLoop move (i + 1) todo'
          end
      | None => slideLoop move (i + 1) todo'
      end
  end.

Definition slideCaptures (move : Move.t) : list Capture := slideLoop move 1 7.

(** What one pass of [moveOptions.forEach] pushes onto [captures]. *)
Definition capturesForMove (move : Move.t) : list Capture :=
  match Move.type move with
  | Jump => jumpCaptures move
  | Slide => slideCaptures move
  end.

Definition getPossibleCaptures : list Capture :=
  flat_map capturesForMove
    (moveOptions (Piece.type (h this)) (Piece.color (h this))).

(** The scan the specification describes: it also stops at the board
    edge, that is at the first off-board step. *)
Fixpoint slideLoopToEdge (move : Move.t) (i : Z) (todo : nat) : list Capture :=
  match todo with
  | O => []
  | S todo' =>
      match calculatePosition (Piece.position (h this)) move i with
      | Some newPosition =>
          match findPiece h board newPosition with
          | Some target =>
              if negb (Color_eqb (Piece.color (h target)) (Piece.color (h this)))
              then [mkCapture this target]
              else []
          | None => slideLoopToEdge move (i + 1) todo'
          end
      | None => []
      end
  end.

Definition slideCapturesToEdge (move : Move.t) : list Capture :=
  slideLoopToEdge move 1 7.
End Captures.

(** ** Board.applyCapture *)

(** The first loop: the first piece whose position equals
    [capture.target.position] is spliced out, and the loop ends there. *)
Fixpoint removeTarget (h : Heap) (capture : Capture) (pieces : Board) : Board :=
  match pieces with
  | [] => []
  | piece :: rest =>
      if String.eqb (Piece.position (h piece)) (Piece.position (h (target capture)))
      then rest
      else piece :: removeTarget h capture rest
  end.

(** The second loop: every piece whose position equals
    [capture.attacker.position], as that field reads when the piece is
    visited, gets [capture.target.position]. *)
Fixpoint relocateAttacker (h : Heap) (capture : Capture) (pieces : Board) : Heap :=
  match pieces with
  | [] => h
  | piece :: rest =>
      let h' :=
        if String.eqb (Piece.position (h piece)) (Piece.position (h (attacker capture)))
        then setPosition h piece (Piece.position (h (target capture)))
        else h in
      relocateAttacker h' capture rest
  end.

Definition applyCapture (h : Heap) (pieces : Board) (capture : Capture)
  : Heap * Board * bool :=
  let initialAmount := Z.of_nat (List.length pieces) in
  let pieces' := removeTarget h capture pieces in
  let h' := relocateAttacker h capture pieces' in
  (h', pieces', Z.of_nat (List.length pieces') =? initialAmount - 1).

(** ** Program state

    The object store with its allocation counter, the two global counters
    and the console.  [new Piece(...)] takes the next unused reference. *)

(** One console entry: ['Solved'] followed by the lines of [printHistory],
    each line carrying the fields of the attacker and of the target as
    they read when the line is printed; or ['Move failed']. *)
Inductive Output :=
| LogSolved (lines : list (Piece.t * Piece.t))
| LogMoveFailed.

Record World := mkWorld {
  objects : Heap;
  nextLoc : loc;
  solutionsCount : nat;
  deadEndCount : nat;
  console : list Output
}.

Definition setObjects (w : World) (h : Heap) : World :=
  mkWorld h (nextLoc w) (solutionsCount w) (deadEndCount w) (console w).

Definition consoleLog (w : World) (o : Output) : World :=
  mkWorld (objects w) (nextLoc w) (solutionsCount w) (deadEndCount w)
          (console w ++ [o]).

Definition incrSolutions (w : World) : World :=
  mkWorld (objects w) (nextLoc w) (S (solutionsCount w)) (deadEndCount w) (console w).

Definition incrDeadEnd (w : World) : World :=
  mkWorld (objects w) (nextLoc w) (solutionsCount w) (S (deadEndCount w)) (console w).

(** [new Piece( type, color, position )] *)
Definition newPiece (w : World) (p : Piece.t) : World * loc :=
  let l := nextLoc w in
  (mkWorld (fun l' => if Nat.eqb l' l then p else objects w l')
           (S l) (solutionsCount w) (deadEndCount w) (console w),
   l).

(** [Piece.clone] *)
Definition Piece_clone (w : World) (this : loc) : World * loc :=
  let o := objects w this in
  newPiece w (Piece.mk (Piece.type o) (Piece.color o) (Piece.position o)).

(** [Board.clone]: [this.pieces.map( piece => piece.clone() )] *)
Fixpoint Board_clone (w : World) (pieces : Board) : World * Board :=
  match pieces with
  | [] => (w, [])
  | piece :: rest =>
      let (w1, piece') := Piece_clone w piece in
      let (w2, rest') := Board_clone w1 rest in
      (w2, piece' :: rest')
  end.

Definition printHistory (h : Heap) (history : list Capture)
  : list (Piece.t * Piece.t) :=
  map (fun capture => (h (attacker capture), h (target capture))) history.

Definition nextColor (turnColor : Color) : Color :=
  if Color_eqb turnColor White then Black else White.

(** ** Board.solveRecursive

    [depth] bounds the nesting of the recursive calls: [None] means that
    the bound was reached.  The two [forEach] loops of the [else] branch
    are [forEachPiece] and [forEachCapture]; [movePossible] is the local
    flag of the same name. *)

Section Loops.
Variable recurse : World -> Board -> list Capture -> Color -> option World.
Variable this : Board.
Variable history : list Capture.
Variable turnColor : Color.

Fixpoint forEachCapture (captures : list Capture) (w : World) : option World :=
  match captures with
  | [] => Some w
  | capture :: rest =>
      let (w1, newBoard) := Board_clone w this in
      let '(h2, newBoard2, result) := applyCapture (objects w1) newBoard capture in
      let w2 := setObjects w1 h2 in
      let after :=
        if result
        then recurse w2 newBoard2 (history ++ [capture]) (nextColor turnColor)
        else Some (consoleLog w2 LogMoveFailed) in
      match after with
      | Some w3 => forEachCapture rest w3
      | None => None
      end
  end.

Fixpoint forEachPiece (pieces : Board) (w : World) (movePossible : bool)
  : option (World * bool) :=
  match pieces with
  | [] => Some (w, movePossible)
  | piece :: rest =>
      if Color_eqb (Piece.color (objects w piece)) turnColor
      then
        let captures := getPossibleCaptures (objects w) this piece in
        let movePossible :=
          if (0 <? List.length captures)%nat then true else movePossible in
        match forEachCapture captures w with
        | Some w' => forEachPiece rest w' movePossible
        | None => None
        end
      else forEachPiece rest w movePossible
  end.
End Loops.

Fixpoint solveRecursive (depth : nat) (w : World) (this : Board)
    (history : list Capture) (turnColor : Color) : option World :=
  match depth with
  | O => None
  | S depth' =>
      if Nat.eqb (List.length this) 1
      then
        Some (incrSolutions
                (consoleLog w (LogSolved (printHistory (objects w) history))))
      else
        match forEachPiece (solveRecursive depth') this history turnColor
                           this w false with
        | Some (w', movePossible) =>
            Some (if negb movePossible then incrDeadEnd w' else w')
        | None => None
        end
  end.

(** [Board.solve] *)
Definition solve (depth : nat) (w : World) (this : Board) : option World :=
  solveRecursive depth w this [] White.

(** The program's own board, built by twelve [new Piece] calls from a
    fresh state. *)
Fixpoint newPieces (w : World) (ps : list Piece.t) : World * Board :=
  match ps with
  | [] => (w, [])
  | p :: rest =>
      let (w1, l) := newPiece w p in
      let (w2, ls) := newPieces w1 rest in
      (w2, l :: ls)
  end.

Definition emptyWorld : World :=
  mkWorld (fun _ => Piece.mk Pawn White "") O O O [].

Definition puzzle : list Piece.t :=
  [ Piece.mk Bishop Black "e4"; Piece.mk Bishop Black "f2";
    Piece.mk Bishop White "f3"; Piece.mk Knight White "d6";
    Piece.mk Knight White "f7"; Piece.mk Knight Black "g3";
    Piece.mk Pawn White "d3"; Piece.mk Pawn Black "e5";
    Piece.mk Pawn White "g2"; Piece.mk Pawn Black "h3";
    Piece.mk Queen Black "c2"; Piece.mk Rook White "g1" ].

(** The script: build the board, solve it from White's turn.  The depth
    bound is the number of pieces, which the search never exceeds. *)
Definition main : option World :=
  let (w, board) := newPieces emptyWorld puzzle in
  solve (List.length puzzle) w board.

(** ** The specification's reading of capture generation

    The same as [getPossibleCaptures], with the slide scan that stops at
    the board edge. *)

Definition capturesForMoveToEdge (h : Heap) (board : Board) (this : loc)
    (move : Move.t) : list Capture :=
  match Move.type move with
  | Jump => jumpCaptures h board this move
  | Slide => slideCapturesToEdge h board this move
  end.

Definition getPossibleCapturesToEdge (h : Heap) (board : Board) (this : loc)
  : list Capture :=
  flat_map (capturesForMoveToEdge h board this)
    (moveOptions (Piece.type (h this)) (Piece.color (h this))).

(** * Vocabulary of the properties *)

(** The bounds test of [calculatePosition], on numbers. *)
Definition inRange (x y : Z) : bool :=
  (1 <=? x) && (x <=? 8) && (1 <=? y) && (y <=? 8).

(** [l] is the first (resp. last) of the pieces of the board, in array
    order, whose position is [position]. *)
Definition firstAt (h : Heap) (pieces : Board) (position : string) (l : loc) : Prop :=
  exists before after,
    pieces = before ++ l :: after
    /\ Piece.position (h l) = position
    /\ Forall (fun l' => Piece.position (h l') <> position) before.

(** See [firstAt]. *)
Definition lastAt (h : Heap) (pieces : Board) (position : string) (l : loc) : Prop :=
  exists before after,
    pieces = before ++ l :: after
    /\ Piece.position (h l) = position
    /\ Forall (fun l' => Piece.position (h l') <> position) after.

(** How many pieces of the board stand at [position]. *)
Definition countAt (h : Heap) (pieces : Board) (position : string) : nat :=
  List.length (filter (fun l => String.eqb (Piece.position (h l)) position) pieces).

(** Step [i] of the ray lands on the board, on a square where [findPiece]
    finds [t]. *)
Definition occupiedAt (h : Heap) (board : Board) (this : loc) (move : Move.t)
    (i : Z) (t : loc) : Prop :=
  exists newPosition,
    calculatePosition (Piece.position (h this)) move i = Some newPosition
    /\ findPiece h board newPosition = Some t.

(** What the loop pushes when it finds [t]. *)
Definition captureIfOpposing (h : Heap) (this t : loc) : list Capture :=
  if negb (Color_eqb (Piece.color (h t)) (Piece.color (h this)))
  then [mkCapture this t]
  else [].

(** Two pieces on a1: the rook is the first of the array, the knight the
    second. *)
Definition twoOnA1 : Heap :=
  fun l => if Nat.eqb l 0 then Piece.mk Rook White "a1" else Piece.mk Knight Black "a1".

(** The rook of the specification's example stands on d4, with a piece on
    d6 and a piece on d7 in the same file; [rookFile ally] makes the piece
    on d6 an ally when [ally] is true and an enemy otherwise. *)
Definition rookFile (ally : bool) : Heap :=
  fun l =>
    match l with
    | O => Piece.mk Rook White "d4"
    | S O => Piece.mk Knight (if ally then White else Black) "d6"
    | _ => Piece.mk Pawn Black "d7"
    end.

(** A white rook on a1, a white rook on a2 and a black pawn on b2. *)
Definition threePieces : Heap :=
  fun l =>
    match l with
    | O => Piece.mk Rook White "a1"
    | S O => Piece.mk Rook White "a2"
    | _ => Piece.mk Pawn Black "b2"
    end.

(** The rook on a2 takes the pawn on b2. *)
Definition rookTakesPawn : Capture := mkCapture 1 2.

(** No piece of the side to move has a capture on this board. *)
Definition noCapture (w : World) (this : Board) (turnColor : Color) : Prop :=
  forall piece,
    In piece this ->
    Piece.color (objects w piece) = turnColor ->
    getPossibleCaptures (objects w) this piece = [].

(** Some piece of the side to move has a capture on this board. *)
Definition someCapture (w : World) (this : Board) (turnColor : Color) : Prop :=
  exists piece,
    In piece this
    /\ Piece.color (objects w piece) = turnColor
    /\ getPossibleCaptures (objects w) this piece <> [].

(** Every reference in [ls] points to an object that has been created. *)
Definition allocated (w : World) (ls : list loc) : Prop :=
  Forall (fun l => (l < nextLoc w)%nat) ls.

(** The colors in [cs] are [turn], the other color, [turn], ... *)
Fixpoint alternating (turn : Color) (cs : list Color) : Prop :=
  match cs with
  | [] => True
  | c :: rest => c = turn /\ alternating (nextColor turn) rest
  end.

(** The side to move after the captures whose attacker colors are [cs]. *)
Fixpoint turnAfter (turn : Color) (cs : list Color) : Color :=
  match cs with
  | [] => turn
  | _ :: rest => turnAfter (nextColor turn) rest
  end.

(** The colors of the attackers of a history, as the store has them. *)
Definition attackerColors (h : Heap) (history : list Capture) : list Color :=
  map (fun capture => Piece.color (h (attacker capture))) history.

(** The colors of the attackers in the printed lines of a solution. *)
Definition lineColors (lines : list (Piece.t * Piece.t)) : list Color :=
  map (fun line => Piece.color (fst line)) lines.

(** A console entry is good when it is not a solution or when its
    attacker colors alternate, beginning with White. *)
Definition goodOutput (o : Output) : Prop :=
  match o with
  | LogSolved lines => alternating White (lineColors lines)
  | LogMoveFailed => True
  end.

(** [w'] comes after [w]: objects were only added, the colors of the
    objects of [w] are the same, and the console has only grown, by
    solutions whose attacker colors alternate from White. *)
Definition extends (w w' : World) : Prop :=
  (nextLoc w <= nextLoc w')%nat
  /\ (forall l, (l < nextLoc w)%nat ->
                Piece.color (objects w' l) = Piece.color (objects w l))
  /\ exists new, console w' = console w ++ new /\ Forall goodOutput new.

(** The history of a call: its attackers exist, their colors alternate
    from White, and [turnColor] is the side to move after them. *)
Definition historyOk (w : World) (history : list Capture) (turnColor : Color) : Prop :=
  allocated w (map attacker history)
  /\ alternating White (attackerColors (objects w) history)
  /\ turnColor = turnAfter White (attackerColors (objects w) history).

(** What the induction on the depth bound gives for the recursive call. *)
Definition recurseExtends
    (recurse : World -> Board -> list Capture -> Color -> option World) : Prop :=
  forall w b hist t w',
    recurse w b hist t = Some w' ->
    allocated w b -> historyOk w hist t -> extends w w'.

(** The step counts a move is tried with: 1 for a jump, 1..7 for a slide. *)
Definition stepsOf (move : Move.t) : list Z :=
  match Move.type move with
  | Jump => [1]
  | Slide => [1; 2; 3; 4; 5; 6; 7]
  end.

(** The move table of piece [a] has a direction that, with one of its step
    counts, lands exactly on the square of piece [b]. *)
Definition canReach (h : Heap) (a b : loc) : Prop :=
  exists move i,
    In move (moveOptions (Piece.type (h a)) (Piece.color (h a)))
    /\ In i (stepsOf move)
    /\ calculatePosition (Piece.position (h a)) move i = Some (Piece.position (h b)).

(** Step [i] of [move] covers the offset ([ddx], [ddy]). *)
Definition hit (move : Move.t) (ddx ddy : Z) (i : Z) : bool :=
  (i * Move.directionX move =? ddx) && (i * Move.directionY move =? ddy).

(** Some step count of [move] covers the offset. *)
Definition reaches (move : Move.t) (ddx ddy : Z) : bool :=
  existsb (hit move ddx ddy) (stepsOf move).

(** Some step count among [i], [i + 1], ... ([todo] of them) covers the
    offset. *)
Fixpoint hitFrom (move : Move.t) (ddx ddy : Z) (i : Z) (todo : nat) : bool :=
  match todo with
  | O => false
  | S todo' => hit move ddx ddy i || hitFrom move ddx ddy (i + 1) todo'
  end.

(** The direction of [move] is not (0, 0). *)
Definition nonzero (move : Move.t) : Prop :=
  Move.directionX move <> 0 \/ Move.directionY move <> 0.

(** What one step of the scan finds. *)
Definition probe (h : Heap) (board : Board) (this : loc) (move : Move.t) (i : Z)
  : option loc :=
  match calculatePosition (Piece.position (h this)) move i with
  | Some newPosition => findPiece h board newPosition
  | None => None
  end.

(** A white knight on a1 and a black rook on a3: the rook reaches the
    knight, the knight does not reach the rook. *)
Definition knightRook : World :=
  fst (newPieces emptyWorld [Piece.mk Knight White "a1"; Piece.mk Rook Black "a3"]).

(** A white rook on a1 and a black knight on a3. *)
Definition rookKnight : World :=
  fst (newPieces emptyWorld [Piece.mk Rook White "a1"; Piece.mk Knight Black "a3"]).

(** A white rook on a1, a black knight on a3 and a black rook on a8. *)
Definition rookKnightRook : World :=
  fst (newPieces emptyWorld
         [Piece.mk Rook White "a1"; Piece.mk Knight Black "a3"; Piece.mk Rook Black "a8"]).

(** ** Vocabulary of the further properties *)

(** [w'] comes after [w] with every object of [w] as it was. *)
Definition frame (w w' : World) : Prop :=
  (nextLoc w <= nextLoc w')%nat
  /\ forall l, (l < nextLoc w)%nat -> objects w' l = objects w l.

Definition isSolved (o : Output) : bool :=
  match o with
  | LogSolved _ => true
  | LogMoveFailed => false
  end.

(** The number of solutions among console entries. *)
Definition countSolved (outs : list Output) : nat :=
  List.length (filter isSolved outs).

(** What a call of the search on a board and a history of [n] pieces and
    captures in all leaves behind: the objects that existed are as they
    were, the console has grown by [new], the solutions counter by the
    number of solutions in [new], the dead-end counter has not gone down,
    and every solution in [new] has [n - 1] lines. *)
Definition searchPost (n : nat) (w w' : World) : Prop :=
  frame w w'
  /\ exists new,
       console w' = console w ++ new
       /\ solutionsCount w' = (solutionsCount w + countSolved new)%nat
       /\ (deadEndCount w <= deadEndCount w')%nat
       /\ forall lines, In (LogSolved lines) new -> S (List.length lines) = n.

Definition recursePost (n : nat)
    (recurse : World -> Board -> list Capture -> Color -> option World) : Prop :=
  forall w b hist t w',
    recurse w b hist t = Some w' ->
    (List.length hist + List.length b)%nat = n ->
    searchPost n w w'.

(** The pieces of the board stand on pairwise distinct positions. *)
Definition distinctPositions (h : Heap) (pieces : Board) : Prop :=
  NoDup (map (fun l => Piece.position (h l)) pieces).

(** A printed line shows a capture between pieces of different colors on
    different squares. *)
Definition legalLine (line : Piece.t * Piece.t) : Prop :=
  Piece.color (fst line) <> Piece.color (snd line)
  /\ Piece.position (fst line) <> Piece.position (snd line).

(** A console entry is a solution of such lines; it is not ['Move failed']. *)
Definition legalOutput (o : Output) : Prop :=
  match o with
  | LogSolved lines => Forall legalLine lines
  | LogMoveFailed => False
  end.

(** The captures of the history refer to existing objects and print as
    legal lines. *)
Definition historyLegal (w : World) (history : list Capture) : Prop :=
  allocated w (map attacker history)
  /\ allocated w (map target history)
  /\ Forall legalLine (printHistory (objects w) history).

(** The console has grown by legal entries only. *)
Definition legalPost (w w' : World) : Prop :=
  exists new, console w' = console w ++ new /\ Forall legalOutput new.

Definition recurseLegal
    (recurse : World -> Board -> list Capture -> Color -> option World) : Prop :=
  forall w b hist t w',
    recurse w b hist t = Some w' ->
    allocated w b -> distinctPositions (objects w) b -> historyLegal w hist ->
    legalPost w w'.

(** A capture between two pieces of the board of different colors. *)
Definition captureOnBoard (w : World) (this : Board) (c : Capture) : Prop :=
  In (attacker c) this
  /\ In (target c) this
  /\ Piece.color (objects w (attacker c)) <> Piece.color (objects w (target c)).

(** The number of search branches that have ended, in a solution or in a
    dead end. *)
Definition tally (w : World) : nat := (solutionsCount w + deadEndCount w)%nat.

(** The console has grown, without any ['Move failed'], and at least one
    more branch has ended. *)
Definition countedPost (w w' : World) : Prop :=
  (exists new, console w' = console w ++ new /\ ~ In LogMoveFailed new)
  /\ (tally w < tally w')%nat.

Definition recurseCounts
    (recurse : World -> Board -> list Capture -> Color -> option World) : Prop :=
  forall w b hist t w',
    recurse w b hist t = Some w' -> allocated w b -> countedPost w w'.

(** The console has grown, without any ['Move failed']. *)
Definition noFailPost (w w' : World) : Prop :=
  exists new, console w' = console w ++ new /\ ~ In LogMoveFailed new.

(** * Properties *)

(** ** Coordinate codec *)

Lemma onBoard_cases (x y : Z) :
  onBoard x y ->
  In x [1; 2; 3; 4; 5; 6; 7; 8] /\ In y [1; 2; 3; 4; 5; 6; 7; 8].
Proof.
  intros [Hx Hy]. split; simpl.
  - assert (x = 1 \/ x = 2 \/ x = 3 \/ x = 4 \/ x = 5 \/ x = 6 \/ x = 7 \/ x = 8)
      by lia.
    intuition auto.
  - assert (y = 1 \/ y = 2 \/ y = 3 \/ y = 4 \/ y = 5 \/ y = 6 \/ y = 7 \/ y = 8)
      by lia.
    intuition auto.
Qed.

Ltac each_square x y H :=
  let Hx := fresh "Hx" in
  let Hy := fresh "Hy" in
  destruct (onBoard_cases x y H) as [Hx Hy];
  simpl in Hx, Hy;
  repeat (destruct Hx as [Hx | Hx]; [subst x | ]); try contradiction;
  repeat (destruct Hy as [Hy | Hy]; [subst y | ]); try contradiction.

Lemma decode_encode (x y : Z) :
  onBoard x y -> decode (encode x y) = (Some x, Some y).
Proof. intros H. each_square x y H; reflexivity. Qed.

Lemma encode_inj (x y x' y' : Z) :
  onBoard x y -> onBoard x' y' -> encode x y = encode x' y' -> x = x' /\ y = y'.
Proof.
  intros H H' E.
  assert (D : decode (encode x y) = decode (encode x' y')) by (rewrite E; reflexivity).
  rewrite !decode_encode in D by assumption.
  split; congruence.
Qed.

Lemma digit_toString (r : ascii) :
  49 <= Z.of_nat (nat_of_ascii r) <= 56 ->
  numberToString (Some (Z.of_nat (nat_of_ascii r) - 48)) = String r EmptyString.
Proof.
  destruct r as [[] [] [] [] [] [] [] []]; vm_compute;
    intros [H1 H2]; try reflexivity;
    try (exfalso; apply H1; reflexivity); exfalso; apply H2; reflexivity.
Qed.

Lemma letter_fromCharCode (f : ascii) :
  fromCharCode (Some (Z.of_nat (nat_of_ascii f) - 96 + 96)) = String f EmptyString.
Proof.
  unfold fromCharCode.
  replace (Z.of_nat (nat_of_ascii f) - 96 + 96) with (Z.of_nat (nat_of_ascii f)) by lia.
  pose proof (nat_ascii_bounded f) as B.
  rewrite Z.mod_small by lia.
  rewrite Nat2Z.id, ascii_nat_embedding. reflexivity.
Qed.

Lemma validLabel_encode (label : string) :
  validLabel label <->
  exists x y, onBoard x y /\ label = encode x y.
Proof.
  split.
  - intros (f & r & -> & Hf & Hr).
    exists (Z.of_nat (nat_of_ascii f) - 96), (Z.of_nat (nat_of_ascii r) - 48).
    split; [unfold onBoard; lia | ].
    unfold encode. rewrite letter_fromCharCode, digit_toString by assumption.
    reflexivity.
  - intros (x & y & H & ->).
    each_square x y H;
      (eexists; eexists; split; [reflexivity | vm_compute; intuition discriminate]).
Qed.

Lemma validLabelb_spec (label : string) :
  validLabelb label = true <-> validLabel label.
Proof.
  split.
  - destruct label as [ | f [ | r [ | ? ? ]]]; simpl; try discriminate.
    intros H. exists f, r. split; [reflexivity | lia].
  - intros (f & r & -> & Hf & Hr). simpl. lia.
Qed.

Lemma inRange_onBoard (x y : Z) : inRange x y = true <-> onBoard x y.
Proof. unfold inRange, onBoard. lia. Qed.

(** On a valid square the codec works on the coordinates. *)
Lemma calculatePosition_encode (x y : Z) (move : Move.t) (k : Z) :
  onBoard x y ->
  calculatePosition (encode x y) move k =
    let x' := x + k * Move.directionX move in
    let y' := y + k * Move.directionY move in
    if inRange x' y' then Some (encode x' y') else None.
Proof.
  intros H. unfold calculatePosition.
  pose proof (decode_encode x y H) as D. unfold decode in D.
  pose proof (f_equal fst D) as Dx. pose proof (f_equal snd D) as Dy.
  cbn [fst snd] in Dx, Dy. rewrite Dx, Dy. cbn [jsAdd option_map jsLt jsGt].
  unfold inRange, encode.
  set (x' := x + k * Move.directionX move).
  set (y' := y + k * Move.directionY move).
  destruct (x' <? 1) eqn:E1, (8 <? x') eqn:E2, (y' <? 1) eqn:E3, (8 <? y') eqn:E4;
    cbn [orb];
    destruct (1 <=? x') eqn:F1, (x' <=? 8) eqn:F2, (1 <=? y') eqn:F3, (y' <=? 8) eqn:F4;
    cbn [andb]; try reflexivity; lia.
Qed.

(** A position that [calculatePosition] returns is never the empty
    string, so the test [if ( newPosition )] tells null from a position. *)
Lemma calculatePosition_not_empty (start : string) (move : Move.t) (multiplier : Z) :
  calculatePosition start move multiplier <> Some EmptyString.
Proof.
  unfold calculatePosition. destruct (_ || _); [discriminate | ].
  unfold fromCharCode. cbn [String.append]. discriminate.
Qed.

Lemma scaled_between (i j d : Z) :
  0 <= i <= j -> Z.min 0 (j * d) <= i * d <= Z.max 0 (j * d).
Proof.
  intros H. destruct (Z.le_ge_cases 0 d).
  - assert (0 <= i * d) by nia. assert (i * d <= j * d) by nia. lia.
  - assert (i * d <= 0) by nia. assert (j * d <= i * d) by nia. lia.
Qed.

(** Once off the board, always off the board: this holds for every
    direction, in particular for the unit directions of the slides. *)
Lemma calculatePosition_off_board_stays (start : string) (move : Move.t) (i j : Z) :
  validLabel start -> 0 <= i <= j ->
  calculatePosition start move i = None ->
  calculatePosition start move j = None.
Proof.
  intros V Hij. apply validLabel_encode in V. destruct V as (x & y & B & ->).
  rewrite !calculatePosition_encode by assumption. cbv zeta.
  destruct (inRange (x + i * _) _) eqn:Ei; [discriminate | intros _].
  destruct (inRange (x + j * _) _) eqn:Ej; [exfalso | reflexivity].
  apply inRange_onBoard in Ej.
  assert (N : ~ onBoard (x + i * Move.directionX move) (y + i * Move.directionY move)).
  { intros C. apply inRange_onBoard in C. congruence. }
  apply N. unfold onBoard in *.
  pose proof (scaled_between i j (Move.directionX move) Hij).
  pose proof (scaled_between i j (Move.directionY move) Hij).
  lia.
Qed.

(** A step of at least one along a direction that is not (0, 0) leaves the
    start square. *)
Lemma calculatePosition_moves (start : string) (move : Move.t) (i : Z) :
  validLabel start -> 1 <= i ->
  (Move.directionX move <> 0 \/ Move.directionY move <> 0) ->
  calculatePosition start move i <> Some start.
Proof.
  intros V Hi Hd. apply validLabel_encode in V. destruct V as (x & y & B & ->).
  rewrite calculatePosition_encode by assumption. cbv zeta.
  destruct (inRange _ _) eqn:E; [ | discriminate].
  apply inRange_onBoard in E. intros C.
  apply (f_equal (fun o => match o with Some s => s | None => EmptyString end)) in C.
  cbv beta iota in C.
  apply encode_inj in C; try assumption. nia.
Qed.

(** ** findPiece *)

Lemma findPiece_app (h : Heap) (pieces : Board) (piece : loc) (position : string) :
  findPiece h (pieces ++ [piece]) position =
    if String.eqb (Piece.position (h piece)) position
    then Some piece
    else findPiece h pieces position.
Proof. unfold findPiece. rewrite fold_left_app. reflexivity. Qed.

Lemma findPiece_None (h : Heap) (pieces : Board) (position : string) :
  findPiece h pieces position = None <->
  Forall (fun l => Piece.position (h l) <> position) pieces.
Proof.
  induction pieces as [ | piece pieces IH] using rev_ind.
  - split; [constructor | reflexivity].
  - rewrite findPiece_app, Forall_app.
    destruct (String.eqb_spec (Piece.position (h piece)) position) as [E | N].
    + split; [discriminate | ].
      intros [_ F]. inversion F; subst. contradiction.
    + rewrite IH. split; [ | tauto].
      intros F. split; [assumption | ]. constructor; [assumption | constructor].
Qed.

Lemma findPiece_Some_lastAt (h : Heap) (pieces : Board) (position : string) (l : loc) :
  findPiece h pieces position = Some l <-> lastAt h pieces position l.
Proof.
  revert l. induction pieces as [ | piece pieces IH] using rev_ind; intros l.
  - split; [discriminate | ].
    intros (before & after & E & _). destruct before; discriminate.
  - rewrite findPiece_app.
    destruct (String.eqb_spec (Piece.position (h piece)) position) as [E | N].
    + split.
      * intros [= <-]. exists pieces, []. repeat split; auto.
      * intros (before & after & Eq & P & F).
        destruct after as [ | a after] using rev_ind.
        -- apply app_inj_tail in Eq. destruct Eq as [_ ->]. reflexivity.
        -- clear IHafter. rewrite app_comm_cons, app_assoc in Eq.
           apply app_inj_tail in Eq. destruct Eq as [_ ->].
           apply Forall_app in F. destruct F as [_ F]. inversion F; subst.
           contradiction.
    + rewrite IH. split.
      * intros (before & after & -> & P & F).
        exists before, (after ++ [piece]). rewrite <- app_assoc. repeat split; auto.
        apply Forall_app. split; [assumption | ]. constructor; [assumption | constructor].
      * intros (before & after & Eq & P & F).
        destruct after as [ | a after] using rev_ind.
        -- apply app_inj_tail in Eq. destruct Eq as [_ ->]. contradiction.
        -- clear IHafter. rewrite app_comm_cons, app_assoc in Eq.
           apply app_inj_tail in Eq. destruct Eq as [-> _].
           apply Forall_app in F. destruct F as [F _].
           exists before, after. repeat split; auto.
Qed.

Lemma findPiece_In (h : Heap) (pieces : Board) (position : string) (l : loc) :
  findPiece h pieces position = Some l -> In l pieces.
Proof.
  intros F. apply findPiece_Some_lastAt in F. destruct F as (before & after & -> & _).
  apply in_or_app. right. left. reflexivity.
Qed.

(** ** Slide scans *)

Section SlideScan.
Variable h : Heap.
Variable board : Board.
Variable this : loc.
Variable move : Move.t.

Lemma slideLoop_nothing (todo : nat) (i : Z) :
  (forall j t, i <= j < i + Z.of_nat todo -> ~ occupiedAt h board this move j t) ->
  slideLoop h board this move i todo = [].
Proof.
  revert i. induction todo as [ | todo IH]; intros i E; [reflexivity | ].
  cbn [slideLoop].
  destruct (calculatePosition _ move i) as [p | ] eqn:C.
  - destruct (findPiece h board p) as [t | ] eqn:F.
    + exfalso. apply (E i t); [lia | ]. exists p. split; assumption.
    + apply IH. intros j t Hj. apply E. lia.
  - apply IH. intros j t Hj. apply E. lia.
Qed.

Lemma slideLoop_first (todo : nat) (i0 i : Z) (t : loc) :
  i0 <= i < i0 + Z.of_nat todo ->
  occupiedAt h board this move i t ->
  (forall j t', i0 <= j < i -> ~ occupiedAt h board this move j t') ->
  slideLoop h board this move i0 todo = captureIfOpposing h this t.
Proof.
  revert i0. induction todo as [ | todo IH]; intros i0 Hi O E; [lia | ].
  cbn [slideLoop].
  destruct (Z.eq_dec i0 i) as [-> | N].
  - destruct O as (p & -> & ->). reflexivity.
  - assert (R : slideLoop h board this move (i0 + 1) todo = captureIfOpposing h this t).
    { apply IH; [lia | assumption | ]. intros j t' Hj. apply E. lia. }
    destruct (calculatePosition _ move i0) as [p | ] eqn:C; [ | exact R].
    destruct (findPiece h board p) as [t' | ] eqn:F; [ | exact R].
    exfalso. apply (E i0 t'); [lia | ]. exists p. split; assumption.
Qed.

Lemma slideLoop_short (todo : nat) (i : Z) :
  (List.length (slideLoop h board this move i todo) <= 1)%nat.
Proof.
  revert i. induction todo as [ | todo IH]; intros i; cbn [slideLoop]; [simpl; lia | ].
  destruct (calculatePosition _ move i) as [p | ]; [ | apply IH].
  destruct (findPiece h board p) as [t | ]; [ | apply IH].
  destruct (negb _); simpl; lia.
Qed.

Lemma slideLoop_off_board (todo : nat) (i : Z) :
  validLabel (Piece.position (h this)) -> 0 <= i ->
  calculatePosition (Piece.position (h this)) move i = None ->
  slideLoop h board this move i todo = [].
Proof.
  intros V Hi C. apply slideLoop_nothing. intros j t Hj (p & Cj & _).
  rewrite (calculatePosition_off_board_stays _ move i j V) in Cj;
    [discriminate | lia | assumption].
Qed.

Lemma slideLoop_toEdge (todo : nat) (i : Z) :
  validLabel (Piece.position (h this)) -> 0 <= i ->
  slideLoop h board this move i todo = slideLoopToEdge h board this move i todo.
Proof.
  intros V. revert i. induction todo as [ | todo IH]; intros i Hi; [reflexivity | ].
  cbn [slideLoop slideLoopToEdge].
  destruct (calculatePosition _ move i) as [p | ] eqn:C.
  - destruct (findPiece h board p); [reflexivity | apply IH; lia].
  - apply slideLoop_off_board; [assumption | lia | ].
    apply (calculatePosition_off_board_stays _ move i (i + 1)); [assumption | lia | assumption].
Qed.
End SlideScan.

(** ** The claims on the codec, on lookup and on capture generation *)

(** C8: for every valid label and every move direction, step count 0
    gives the label back; and the decoded pair of a valid label is a pair
    of numbers on the board whose encoding is the label itself. *)
Theorem calculatePosition_zero_identity (label : string) (move : Move.t) :
  validLabel label ->
  calculatePosition label move 0 = Some label
  /\ exists x y, decode label = (Some x, Some y) /\ onBoard x y /\ encode x y = label.
Proof.
  intros V. apply validLabel_encode in V. destruct V as (x & y & B & ->). split.
  - rewrite calculatePosition_encode by assumption. cbv zeta.
    replace (x + 0 * Move.directionX move) with x by lia.
    replace (y + 0 * Move.directionY move) with y by lia.
    apply inRange_onBoard in B. rewrite B. reflexivity.
  - exists x, y. split; [apply decode_encode; assumption | split; [assumption | reflexivity]].
Qed.

Lemma calculatePosition_zero_identity_witness :
  validLabel "e4"
  /\ calculatePosition "e4" (Move.mk (-2) 1 Jump) 0 = Some "e4"
  /\ exists x y, decode "e4" = (Some x, Some y) /\ onBoard x y /\ encode x y = "e4".
Proof.
  assert (V : validLabel "e4") by (apply validLabelb_spec; reflexivity).
  split; [exact V | ].
  exact (calculatePosition_zero_identity "e4" (Move.mk (-2) 1 Jump) V).
Defined.

(** C2, as the code has it: on a board on which two or more pieces share
    a position label, [findPiece] of that label returns the piece that
    occurs last in the array among those at that position. *)
Theorem findPiece_returns_last (h : Heap) (pieces : Board) (position : string) :
  (2 <= countAt h pieces position)%nat ->
  exists l, findPiece h pieces position = Some l /\ lastAt h pieces position l.
Proof.
  intros H. destruct (findPiece h pieces position) as [l | ] eqn:F.
  - exists l. split; [reflexivity | ]. apply findPiece_Some_lastAt. assumption.
  - exfalso. apply findPiece_None in F.
    unfold countAt in H.
    assert (Z : filter (fun l => String.eqb (Piece.position (h l)) position) pieces = []).
    { clear H. induction F as [ | l ls N F IH]; simpl; [reflexivity | ].
      destruct (String.eqb_spec (Piece.position (h l)) position); [contradiction | exact IH]. }
    rewrite Z in H. simpl in H. lia.
Qed.

Lemma findPiece_returns_last_witness :
  (2 <= countAt twoOnA1 [0%nat; 1%nat] "a1")%nat
  /\ exists l, findPiece twoOnA1 [0%nat; 1%nat] "a1" = Some l
               /\ lastAt twoOnA1 [0%nat; 1%nat] "a1" l.
Proof.
  assert (C : (2 <= countAt twoOnA1 [0%nat; 1%nat] "a1")%nat) by (vm_compute; lia).
  split; [exact C | ].
  exact (findPiece_returns_last twoOnA1 [0%nat; 1%nat] "a1" C).
Defined.

(** C2 as it is written fails: with a rook and then a knight on a1, the
    rook is the first piece at a1, and [findPiece] returns the knight. *)
Lemma findPiece_first_counterexample :
  (2 <= countAt twoOnA1 [0%nat; 1%nat] "a1")%nat
  /\ firstAt twoOnA1 [0%nat; 1%nat] "a1" 0%nat
  /\ findPiece twoOnA1 [0%nat; 1%nat] "a1" = Some 1%nat
  /\ findPiece twoOnA1 [0%nat; 1%nat] "a1" <> Some 0%nat.
Proof.
  split; [vm_compute; lia | ]. split.
  - exists [], [1%nat]. repeat split. constructor.
  - split; [reflexivity | discriminate].
Qed.

(** C5: [getPossibleCaptures] returns, in table order, what each
    direction of the piece's move table pushes, and for a Slide direction
    that is at most one capture.  When step [i] of 1..7 is the first that
    lands on an occupied square, the scan pushes exactly the capture of
    the piece found there if that piece's color differs from the piece's
    own, and nothing if the two colors are the same (the ally blocks the
    ray); in either case nothing further along the ray is pushed.  When no
    step of 1..7 lands on an occupied square, nothing is pushed. *)
Theorem slide_captures_first_occupied (h : Heap) (board : Board) (this : loc)
    (move : Move.t) :
  Move.type move = Slide ->
  getPossibleCaptures h board this
  = flat_map (capturesForMove h board this)
             (moveOptions (Piece.type (h this)) (Piece.color (h this)))
  /\ (List.length (capturesForMove h board this move) <= 1)%nat
  /\ (forall i t,
        1 <= i <= 7 ->
        occupiedAt h board this move i t ->
        (forall j t', 1 <= j < i -> ~ occupiedAt h board this move j t') ->
        (Piece.color (h t) <> Piece.color (h this) ->
         capturesForMove h board this move = [mkCapture this t])
        /\ (Piece.color (h t) = Piece.color (h this) ->
            capturesForMove h board this move = []))
  /\ ((forall j t', 1 <= j <= 7 -> ~ occupiedAt h board this move j t') ->
      capturesForMove h board this move = []).
Proof.
  intros S. split; [reflexivity | ].
  unfold capturesForMove. rewrite S. unfold slideCaptures.
  split; [apply slideLoop_short | split].
  - intros i t Hi O E.
    rewrite (slideLoop_first h board this move 7 1 i t); [ | simpl; lia | assumption | assumption].
    unfold captureIfOpposing.
    destruct (Piece.color (h t)), (Piece.color (h this)); cbn;
      split; intros C; congruence.
  - intros E. apply slideLoop_nothing. intros j t Hj. apply E. simpl in Hj. lia.
Qed.

Example rook_blocked_by_ally :
  getPossibleCaptures (rookFile true) [0; 1; 2]%nat 0%nat = [].
Proof. reflexivity. Qed.

Example rook_takes_first_enemy :
  getPossibleCaptures (rookFile false) [0; 1; 2]%nat 0%nat = [mkCapture 0 1].
Proof. reflexivity. Qed.

Lemma slide_captures_first_occupied_witness :
  Move.type (Move.mk 0 1 Slide) = Slide
  /\ (occupiedAt (rookFile false) [0; 1; 2]%nat 0%nat (Move.mk 0 1 Slide) 2 1%nat
      /\ Piece.color (rookFile false 1%nat) <> Piece.color (rookFile false 0%nat)
      /\ capturesForMove (rookFile false) [0; 1; 2]%nat 0%nat (Move.mk 0 1 Slide)
         = [mkCapture 0 1])
  /\ (occupiedAt (rookFile true) [0; 1; 2]%nat 0%nat (Move.mk 0 1 Slide) 2 1%nat
      /\ Piece.color (rookFile true 1%nat) = Piece.color (rookFile true 0%nat)
      /\ capturesForMove (rookFile true) [0; 1; 2]%nat 0%nat (Move.mk 0 1 Slide)
         = []).
Proof.
  assert (O : forall ally,
             occupiedAt (rookFile ally) [0; 1; 2]%nat 0%nat (Move.mk 0 1 Slide) 2 1%nat)
    by (intros ally; exists "d6"; split; reflexivity).
  assert (E : forall ally j t',
             1 <= j < 2 ->
             ~ occupiedAt (rookFile ally) [0; 1; 2]%nat 0%nat (Move.mk 0 1 Slide) j t').
  { intros ally j t' Hj (p & C & Q). assert (j = 1) by lia. subst j.
    vm_compute in C. injection C as <-. discriminate Q. }
  assert (Enemy : Piece.color (rookFile false 1%nat) <> Piece.color (rookFile false 0%nat))
    by discriminate.
  assert (Ally : Piece.color (rookFile true 1%nat) = Piece.color (rookFile true 0%nat))
    by reflexivity.
  split; [reflexivity | split].
  - split; [exact (O false) | split; [exact Enemy | ]].
    destruct (slide_captures_first_occupied (rookFile false) [0; 1; 2]%nat 0%nat
                (Move.mk 0 1 Slide) eq_refl) as (_ & _ & F & _).
    destruct (F 2 1%nat) as [F1 _]; [lia | exact (O false) | exact (E false) | ].
    exact (F1 Enemy).
  - split; [exact (O true) | split; [exact Ally | ]].
    destruct (slide_captures_first_occupied (rookFile true) [0; 1; 2]%nat 0%nat
                (Move.mk 0 1 Slide) eq_refl) as (_ & _ & F & _).
    destruct (F 2 1%nat) as [_ F2]; [lia | exact (O true) | exact (E true) | ].
    exact (F2 Ally).
Defined.

(** C10: from a valid start square, once a step count [i >= 0] is off the
    board, so is every step count [j >= i] (for every direction, hence for
    those with components in -1, 0, 1); and the slide loop of
    [getPossibleCaptures], which goes on past an off-board step, pushes the
    same captures as the scan that stops at the first off-board step, so
    that the whole capture list is the same. *)
Theorem slide_loop_same_as_stopping_at_edge (h : Heap) (board : Board) (this : loc)
    (move : Move.t) :
  validLabel (Piece.position (h this)) ->
  (forall i j, 0 <= i <= j ->
     calculatePosition (Piece.position (h this)) move i = None ->
     calculatePosition (Piece.position (h this)) move j = None)
  /\ slideCaptures h board this move = slideCapturesToEdge h board this move
  /\ getPossibleCaptures h board this = getPossibleCapturesToEdge h board this.
Proof.
  intros V. split; [ | split].
  - intros i j Hij. apply calculatePosition_off_board_stays; assumption.
  - apply slideLoop_toEdge; [assumption | lia].
  - unfold getPossibleCaptures, getPossibleCapturesToEdge. apply flat_map_ext.
    intros m. unfold capturesForMove, capturesForMoveToEdge.
    destruct (Move.type m); [reflexivity | ].
    apply slideLoop_toEdge; [assumption | lia].
Qed.

Lemma slide_loop_same_as_stopping_at_edge_witness :
  validLabel (Piece.position (rookFile true 0%nat))
  /\ (forall i j, 0 <= i <= j ->
        calculatePosition "d4" (Move.mk (-1) 0 Slide) i = None ->
        calculatePosition "d4" (Move.mk (-1) 0 Slide) j = None)
  /\ slideCaptures (rookFile true) [0; 1; 2]%nat 0%nat (Move.mk (-1) 0 Slide)
     = slideCapturesToEdge (rookFile true) [0; 1; 2]%nat 0%nat (Move.mk (-1) 0 Slide)
  /\ getPossibleCaptures (rookFile true) [0; 1; 2]%nat 0%nat
     = getPossibleCapturesToEdge (rookFile true) [0; 1; 2]%nat 0%nat.
Proof.
  assert (V : validLabel (Piece.position (rookFile true 0%nat)))
    by (apply validLabelb_spec; reflexivity).
  split; [exact V | ].
  exact (slide_loop_same_as_stopping_at_edge (rookFile true) [0; 1; 2]%nat 0%nat
           (Move.mk (-1) 0 Slide) V).
Defined.

(** ** applyCapture *)

Lemma setPosition_same (h : Heap) (piece : loc) (position : string) :
  Piece.position (setPosition h piece position piece) = position.
Proof. unfold setPosition. rewrite Nat.eqb_refl. reflexivity. Qed.

Lemma setPosition_other (h : Heap) (piece l : loc) (position : string) :
  l <> piece -> setPosition h piece position l = h l.
Proof.
  intros N. unfold setPosition. destruct (Nat.eqb_spec l piece); [contradiction | reflexivity].
Qed.

Lemma setPosition_color (h : Heap) (piece l : loc) (position : string) :
  Piece.color (setPosition h piece position l) = Piece.color (h l).
Proof. unfold setPosition. destruct (Nat.eqb l piece); reflexivity. Qed.

Lemma setPosition_type (h : Heap) (piece l : loc) (position : string) :
  Piece.type (setPosition h piece position l) = Piece.type (h l).
Proof. unfold setPosition. destruct (Nat.eqb l piece); reflexivity. Qed.

Section ApplyCapture.
Variable capture : Capture.

Lemma removeTarget_none (h : Heap) (pieces : Board) :
  Forall (fun l => Piece.position (h l) <> Piece.position (h (target capture))) pieces ->
  removeTarget h capture pieces = pieces.
Proof.
  induction 1 as [ | l ls N F IH]; cbn [removeTarget]; [reflexivity | ].
  destruct (String.eqb_spec (Piece.position (h l)) (Piece.position (h (target capture))));
    [contradiction | ].
  rewrite IH. reflexivity.
Qed.

Lemma removeTarget_first (h : Heap) (before after : Board) (l : loc) :
  Forall (fun l' => Piece.position (h l') <> Piece.position (h (target capture))) before ->
  Piece.position (h l) = Piece.position (h (target capture)) ->
  removeTarget h capture (before ++ l :: after) = before ++ after.
Proof.
  intros F E. induction F as [ | b bs N F IH]; cbn [removeTarget app].
  - rewrite E, String.eqb_refl. reflexivity.
  - destruct (String.eqb_spec (Piece.position (h b)) (Piece.position (h (target capture))));
      [contradiction | ].
    rewrite IH. reflexivity.
Qed.

Lemma relocateAttacker_none (h : Heap) (pieces : Board) :
  Forall (fun l => Piece.position (h l) <> Piece.position (h (attacker capture))) pieces ->
  relocateAttacker h capture pieces = h.
Proof.
  induction 1 as [ | l ls N F IH]; cbn [relocateAttacker]; [reflexivity | ].
  destruct (String.eqb_spec (Piece.position (h l)) (Piece.position (h (attacker capture))));
    [contradiction | exact IH].
Qed.

Lemma relocateAttacker_app (h : Heap) (xs ys : Board) :
  relocateAttacker h capture (xs ++ ys) =
    relocateAttacker (relocateAttacker h capture xs) capture ys.
Proof.
  revert h. induction xs as [ | x xs IH]; intros h; [reflexivity | ].
  cbn [relocateAttacker app]. apply IH.
Qed.

(** The second loop changes no type and no color. *)
Lemma relocateAttacker_color (h : Heap) (pieces : Board) (l : loc) :
  Piece.color (relocateAttacker h capture pieces l) = Piece.color (h l).
Proof.
  revert h. induction pieces as [ | p ps IH]; intros h; [reflexivity | ].
  cbn [relocateAttacker]. rewrite IH.
  destruct (String.eqb _ _); [apply setPosition_color | reflexivity].
Qed.

Lemma relocateAttacker_type (h : Heap) (pieces : Board) (l : loc) :
  Piece.type (relocateAttacker h capture pieces l) = Piece.type (h l).
Proof.
  revert h. induction pieces as [ | p ps IH]; intros h; [reflexivity | ].
  cbn [relocateAttacker]. rewrite IH.
  destruct (String.eqb _ _); [apply setPosition_type | reflexivity].
Qed.

(** It writes only to pieces of the board. *)
Lemma relocateAttacker_outside (h : Heap) (pieces : Board) (l : loc) :
  ~ In l pieces -> relocateAttacker h capture pieces l = h l.
Proof.
  revert h. induction pieces as [ | p ps IH]; intros h N; [reflexivity | ].
  cbn [relocateAttacker]. rewrite IH by (intros C; apply N; right; exact C).
  destruct (String.eqb _ _); [ | reflexivity].
  apply setPosition_other. intros ->. apply N. left. reflexivity.
Qed.

(** When the target object is not on the board, every write stores the
    same label, so a piece that holds it keeps it. *)
Lemma relocateAttacker_keeps_target_label (h : Heap) (pieces : Board) (l : loc) :
  ~ In (target capture) pieces ->
  Piece.position (h l) = Piece.position (h (target capture)) ->
  Piece.position (relocateAttacker h capture pieces l)
    = Piece.position (h (target capture)).
Proof.
  revert h. induction pieces as [ | p ps IH]; intros h N E; [exact E | ].
  cbn [relocateAttacker].
  assert (Np : target capture <> p) by (intros Q; apply N; left; symmetry; exact Q).
  assert (Nps : ~ In (target capture) ps) by (intros C; apply N; right; exact C).
  destruct (String.eqb _ _); [ | apply IH; assumption].
  set (h1 := setPosition h p (Piece.position (h (target capture)))).
  assert (T : Piece.position (h1 (target capture)) = Piece.position (h (target capture)))
    by (unfold h1; rewrite setPosition_other by assumption; reflexivity).
  rewrite <- T. apply IH; [assumption | ].
  rewrite T. unfold h1. destruct (Nat.eq_dec l p) as [-> | D].
  - apply setPosition_same.
  - rewrite setPosition_other by assumption. exact E.
Qed.

(** When neither object of the capture is on the board, the labels the
    loop compares with and stores stay the same, so every piece standing at
    the attacker's position is rewritten. *)
Lemma relocateAttacker_all (h : Heap) (pieces : Board) (l : loc) :
  ~ In (attacker capture) pieces ->
  ~ In (target capture) pieces ->
  In l pieces ->
  Piece.position (h l) = Piece.position (h (attacker capture)) ->
  Piece.position (relocateAttacker h capture pieces l)
    = Piece.position (h (target capture)).
Proof.
  revert h. induction pieces as [ | p ps IH]; intros h Na Nt Il E; [destruct Il | ].
  cbn [relocateAttacker].
  assert (Nap : attacker capture <> p) by (intros Q; apply Na; left; symmetry; exact Q).
  assert (Ntp : target capture <> p) by (intros Q; apply Nt; left; symmetry; exact Q).
  assert (Naps : ~ In (attacker capture) ps) by (intros C; apply Na; right; exact C).
  assert (Ntps : ~ In (target capture) ps) by (intros C; apply Nt; right; exact C).
  destruct (String.eqb_spec (Piece.position (h p)) (Piece.position (h (attacker capture))))
    as [M | M].
  - set (h1 := setPosition h p (Piece.position (h (target capture)))).
    assert (T : Piece.position (h1 (target capture)) = Piece.position (h (target capture)))
      by (unfold h1; rewrite setPosition_other by assumption; reflexivity).
    assert (A : Piece.position (h1 (attacker capture))
                = Piece.position (h (attacker capture)))
      by (unfold h1; rewrite setPosition_other by assumption; reflexivity).
    rewrite <- T. destruct (Nat.eq_dec l p) as [-> | D].
    + apply relocateAttacker_keeps_target_label; [assumption | ].
      rewrite T. apply setPosition_same.
    + destruct Il as [Q | Il]; [exfalso; apply D; symmetry; exact Q | ].
      apply IH; try assumption.
      rewrite A. unfold h1. rewrite setPosition_other by assumption. exact E.
  - destruct Il as [<- | Il]; [contradiction | ].
    apply IH; assumption.
Qed.

Lemma applyCapture_result (h : Heap) (pieces : Board) :
  snd (applyCapture h pieces capture) = true <->
  Z.of_nat (List.length (snd (fst (applyCapture h pieces capture))))
    = Z.of_nat (List.length pieces) - 1.
Proof. unfold applyCapture. cbn [fst snd]. apply Z.eqb_eq. Qed.

Lemma applyCapture_true_length (h h' : Heap) (pieces pieces' : Board) :
  applyCapture h pieces capture = (h', pieces', true) ->
  List.length pieces = S (List.length pieces').
Proof.
  intros E. pose proof (proj1 (applyCapture_result h pieces)) as R.
  rewrite E in R. cbn [fst snd] in R. specialize (R eq_refl). lia.
Qed.
End ApplyCapture.

Lemma NoDup_map_split {A B : Type} (f : A -> B) (xs ys : list A) (x : A) :
  NoDup (map f (xs ++ x :: ys)) ->
  Forall (fun y => f y <> f x) xs
  /\ Forall (fun y => f y <> f x) ys
  /\ NoDup (map f (xs ++ ys)).
Proof.
  rewrite !map_app. cbn [map]. intros ND.
  apply NoDup_remove in ND. destruct ND as [ND N].
  repeat split; [ | | exact ND]; apply Forall_forall; intros y Iy E; apply N;
    apply in_or_app; [left | right]; rewrite <- E; apply in_map; exact Iy.
Qed.

(** On a board with pairwise distinct positions, a capture naming the
    positions of the pieces [a] and [t] of the board splices [t] out and
    rewrites [a] only.  The capture may hold references to [a] and [t]
    themselves, or to other objects with the same positions, as in the
    search, where it refers to the pieces of the board that was cloned. *)
Lemma applyCapture_distinct (h : Heap) (pieces : Board) (capture : Capture) (a t : loc) :
  NoDup (map (fun l => Piece.position (h l)) pieces) ->
  In a pieces ->
  In t pieces ->
  Piece.position (h a) = Piece.position (h (attacker capture)) ->
  Piece.position (h t) = Piece.position (h (target capture)) ->
  Piece.position (h a) <> Piece.position (h t) ->
  exists before after,
    pieces = before ++ t :: after
    /\ applyCapture h pieces capture =
         (setPosition h a (Piece.position (h t)), before ++ after, true)
    /\ ~ In t (before ++ after)
    /\ In a (before ++ after)
    /\ NoDup (map (fun l => Piece.position (h l)) (before ++ after))
    /\ Forall (fun l => Piece.position (h l) <> Piece.position (h t)) (before ++ after).
Proof.
  intros ND Ia It Pa Pt Np.
  destruct (in_split _ _ It) as (before & after & ->).
  destruct (NoDup_map_split _ _ _ _ ND) as (Fb & Fa & ND').
  assert (Frest : Forall (fun l => Piece.position (h l) <> Piece.position (h t))
                         (before ++ after))
    by (apply Forall_app; split; assumption).
  assert (Nt : ~ In t (before ++ after)).
  { intros C. rewrite Forall_forall in Frest. exact (Frest _ C eq_refl). }
  assert (Ia' : In a (before ++ after)).
  { apply in_app_or in Ia. apply in_or_app.
    destruct Ia as [Ia | [Ia | Ia]]; [left; exact Ia | | right; exact Ia].
    exfalso. apply Np. rewrite Ia. reflexivity. }
  exists before, after. repeat split; try assumption.
  unfold applyCapture.
  rewrite (removeTarget_first capture h before after t);
    [ | rewrite <- Pt; exact Fb | exact Pt].
  f_equal; [f_equal | ].
  - destruct (in_split _ _ Ia') as (c1 & c2 & Ec). rewrite Ec in *.
    destruct (NoDup_map_split _ _ _ _ ND') as (F1 & F2 & _).
    rewrite relocateAttacker_app, (relocateAttacker_none capture h c1);
      [ | rewrite <- Pa; exact F1].
    cbn [relocateAttacker]. rewrite Pa, String.eqb_refl, <- Pt.
    apply relocateAttacker_none.
    apply Forall_app in Frest. destruct Frest as [_ Frest].
    apply Forall_cons_iff in Frest. destruct Frest as [_ Frest2].
    rewrite Forall_forall in *. intros l Il.
    assert (D : l <> a) by (intros ->; exact (F2 _ Il eq_refl)).
    rewrite (setPosition_other h a l) by assumption.
    destruct (Nat.eq_dec (attacker capture) a) as [-> | Da].
    + rewrite setPosition_same. apply Frest2. exact Il.
    + rewrite setPosition_other by assumption. rewrite <- Pa. apply F2. exact Il.
  - rewrite !length_app. cbn [List.length]. apply Z.eqb_eq. lia.
Qed.

(** C1: on a board whose pieces stand on pairwise distinct positions, a
    capture whose attacker and target are two pieces [a] and [t] of the
    board at distinct positions succeeds: [applyCapture] returns true, the
    board has one piece fewer, [a], still on the board, now has the
    position [t] had, and [t] is no longer on the board: looking up the
    square [t] stood on finds [a], and no lookup finds [t].  The capture
    names [a] and [t] by their positions: it may refer to [a] and [t]
    themselves (take [a] and [t] to be its attacker and target) or to the
    pieces they were cloned from.  On every board and for every capture the
    returned flag is true exactly when the piece count went down by one. *)
Theorem applyCapture_removes_target_and_moves_attacker
    (h : Heap) (pieces : Board) (capture : Capture) (a t : loc)
    (h' : Heap) (pieces' : Board) (result : bool) :
  NoDup (map (fun l => Piece.position (h l)) pieces) ->
  In a pieces ->
  In t pieces ->
  Piece.position (h a) = Piece.position (h (attacker capture)) ->
  Piece.position (h t) = Piece.position (h (target capture)) ->
  Piece.position (h a) <> Piece.position (h t) ->
  applyCapture h pieces capture = (h', pieces', result) ->
  result = true
  /\ Z.of_nat (List.length pieces') = Z.of_nat (List.length pieces) - 1
  /\ In a pieces'
  /\ Piece.position (h' a) = Piece.position (h t)
  /\ ~ In t pieces'
  /\ findPiece h' pieces' (Piece.position (h t)) = Some a
  /\ (forall position, findPiece h' pieces' position <> Some t)
  /\ (forall (h0 : Heap) (pieces0 : Board) (capture0 : Capture),
        snd (applyCapture h0 pieces0 capture0) = true <->
        Z.of_nat (List.length (snd (fst (applyCapture h0 pieces0 capture0))))
          = Z.of_nat (List.length pieces0) - 1).
Proof.
  intros ND Ia It Pa Pt Np E.
  destruct (applyCapture_distinct h pieces capture a t ND Ia It Pa Pt Np)
    as (before & after & Ep & R & Nt & Ia' & ND' & Frest).
  rewrite R in E. injection E as <- <- <-.
  split; [reflexivity | ].
  split; [rewrite Ep, !length_app; cbn [List.length]; lia | ].
  split; [exact Ia' | ].
  split; [apply setPosition_same | ].
  split; [exact Nt | ].
  split; [ | split].
  - apply findPiece_Some_lastAt.
    destruct (in_split _ _ Ia') as (c1 & c2 & Ec). rewrite Ec in *.
    exists c1, c2. split; [reflexivity | split; [apply setPosition_same | ]].
    destruct (NoDup_map_split _ _ _ _ ND') as (_ & F2 & _).
    apply Forall_app in Frest. destruct Frest as [_ Frest].
    apply Forall_cons_iff in Frest. destruct Frest as [_ Frest].
    rewrite Forall_forall in *. intros l Il.
    assert (D : l <> a) by (intros ->; exact (F2 _ Il eq_refl)).
    rewrite setPosition_other by assumption. apply Frest. exact Il.
  - intros position C. apply Nt. exact (findPiece_In _ _ _ _ C).
  - intros h0 pieces0 capture0. apply applyCapture_result.
Qed.

Lemma applyCapture_removes_target_and_moves_attacker_witness :
  NoDup (map (fun l => Piece.position (threePieces l)) [0; 1; 2]%nat)
  /\ In (attacker rookTakesPawn) [0; 1; 2]%nat
  /\ In (target rookTakesPawn) [0; 1; 2]%nat
  /\ Piece.position (threePieces (attacker rookTakesPawn))
     <> Piece.position (threePieces (target rookTakesPawn))
  /\ snd (applyCapture threePieces [0; 1; 2]%nat rookTakesPawn) = true
  /\ Z.of_nat (List.length (snd (fst (applyCapture threePieces [0; 1; 2]%nat rookTakesPawn))))
     = Z.of_nat (List.length [0; 1; 2]%nat) - 1
  /\ Piece.position (fst (fst (applyCapture threePieces [0; 1; 2]%nat rookTakesPawn))
                        (attacker rookTakesPawn)) = "b2"
  /\ ~ In (target rookTakesPawn)
          (snd (fst (applyCapture threePieces [0; 1; 2]%nat rookTakesPawn))).
Proof.
  assert (ND : NoDup (map (fun l => Piece.position (threePieces l)) [0; 1; 2]%nat)).
  { vm_compute. repeat constructor; simpl; intuition discriminate. }
  assert (Ia : In (attacker rookTakesPawn) [0; 1; 2]%nat) by (simpl; auto).
  assert (It : In (target rookTakesPawn) [0; 1; 2]%nat) by (simpl; auto).
  assert (Np : Piece.position (threePieces (attacker rookTakesPawn))
               <> Piece.position (threePieces (target rookTakesPawn))) by discriminate.
  destruct (applyCapture_removes_target_and_moves_attacker
              threePieces [0; 1; 2]%nat rookTakesPawn
              (attacker rookTakesPawn) (target rookTakesPawn)
              (fst (fst (applyCapture threePieces [0; 1; 2]%nat rookTakesPawn)))
              (snd (fst (applyCapture threePieces [0; 1; 2]%nat rookTakesPawn)))
              (snd (applyCapture threePieces [0; 1; 2]%nat rookTakesPawn))
              ND Ia It eq_refl eq_refl Np)
    as (R1 & R2 & _ & R3 & R4 & _).
  { destruct (applyCapture threePieces [0; 1; 2]%nat rookTakesPawn) as [[? ?] ?].
    reflexivity. }
  repeat split; assumption.
Defined.

(** C9: when no piece of the board stands at the target's position,
    [applyCapture] returns false and removes nothing; yet the first piece
    of the array standing at the attacker's position (the only one when
    positions are distinct) has had its position overwritten with the
    target's: the failed call has changed the board.  When the capture's
    attacker is not itself an object of the board, as in the search, every
    piece standing at the attacker's position has been overwritten. *)
Theorem applyCapture_failure_still_moves_attacker
    (h : Heap) (pieces : Board) (capture : Capture)
    (h' : Heap) (pieces' : Board) (result : bool) :
  Forall (fun l => Piece.position (h l) <> Piece.position (h (target capture))) pieces ->
  applyCapture h pieces capture = (h', pieces', result) ->
  result = false
  /\ pieces' = pieces
  /\ (forall l,
        firstAt h pieces (Piece.position (h (attacker capture))) l ->
        Piece.position (h' l) = Piece.position (h (target capture))
        /\ Piece.position (h' l) <> Piece.position (h l))
  /\ (~ In (attacker capture) pieces ->
      forall l,
        In l pieces ->
        Piece.position (h l) = Piece.position (h (attacker capture)) ->
        Piece.position (h' l) = Piece.position (h (target capture))).
Proof.
  intros F E. unfold applyCapture in E.
  rewrite (removeTarget_none capture h pieces F) in E.
  injection E as <- <- <-.
  assert (Nt : ~ In (target capture) pieces).
  { intros C. rewrite Forall_forall in F. exact (F _ C eq_refl). }
  split; [apply Z.eqb_neq; lia | split; [reflexivity | split]].
  - intros l (before & after & -> & P & Fb).
    assert (Nl : target capture <> l).
    { intros Q. apply Nt. apply in_or_app. right. left. symmetry. exact Q. }
    assert (R : Piece.position (relocateAttacker h capture (before ++ l :: after) l)
                = Piece.position (h (target capture))).
    { rewrite relocateAttacker_app, (relocateAttacker_none capture h before Fb).
      cbn [relocateAttacker]. rewrite P, String.eqb_refl.
      set (h1 := setPosition h l (Piece.position (h (target capture)))).
      assert (T : Piece.position (h1 (target capture)) = Piece.position (h (target capture)))
        by (unfold h1; rewrite setPosition_other by assumption; reflexivity).
      rewrite <- T. apply relocateAttacker_keeps_target_label.
      - intros C. apply Nt. apply in_or_app. right. right. exact C.
      - rewrite T. apply setPosition_same. }
    split; [exact R | ].
    rewrite R. intros Q. rewrite Forall_forall in F.
    apply (F l); [apply in_or_app; right; left; reflexivity | ]. symmetry. exact Q.
  - intros Na l Il P. apply relocateAttacker_all; assumption.
Qed.

Lemma applyCapture_failure_still_moves_attacker_witness :
  Forall (fun l => Piece.position (threePieces l)
                   <> Piece.position (threePieces (target rookTakesPawn))) [0; 1]%nat
  /\ firstAt threePieces [0; 1]%nat
       (Piece.position (threePieces (attacker rookTakesPawn))) 1%nat
  /\ snd (applyCapture threePieces [0; 1]%nat rookTakesPawn) = false
  /\ snd (fst (applyCapture threePieces [0; 1]%nat rookTakesPawn)) = [0; 1]%nat
  /\ Piece.position (fst (fst (applyCapture threePieces [0; 1]%nat rookTakesPawn)) 1%nat)
     = "b2".
Proof.
  assert (F : Forall (fun l => Piece.position (threePieces l)
                               <> Piece.position (threePieces (target rookTakesPawn)))
                     [0; 1]%nat)
    by (repeat constructor; discriminate).
  assert (A : firstAt threePieces [0; 1]%nat
                (Piece.position (threePieces (attacker rookTakesPawn))) 1%nat).
  { exists [0%nat], []. repeat split. repeat constructor. discriminate. }
  destruct (applyCapture_failure_still_moves_attacker
              threePieces [0; 1]%nat rookTakesPawn
              (fst (fst (applyCapture threePieces [0; 1]%nat rookTakesPawn)))
              (snd (fst (applyCapture threePieces [0; 1]%nat rookTakesPawn)))
              (snd (applyCapture threePieces [0; 1]%nat rookTakesPawn)) F)
    as (R1 & R2 & R3 & _).
  { destruct (applyCapture threePieces [0; 1]%nat rookTakesPawn) as [[? ?] ?].
    reflexivity. }
  destruct (R3 1%nat A) as [R4 _].
  repeat split; assumption.
Defined.

(** ** The search: termination *)

Lemma Board_clone_length (w : World) (pieces : Board) :
  List.length (snd (Board_clone w pieces)) = List.length pieces.
Proof.
  revert w. induction pieces as [ | piece rest IH]; intros w; [reflexivity | ].
  cbn [Board_clone]. destruct (Piece_clone w piece) as [w1 piece'].
  specialize (IH w1). destruct (Board_clone w1 rest) as [w2 rest'].
  cbn [snd List.length] in *. rewrite IH. reflexivity.
Qed.

Section LoopsCallSmallerBoards.
Variable this : Board.
Variable history : list Capture.
Variable turnColor : Color.

(** The loops pass to [recurse] only boards with exactly one piece fewer
    than [this]: two functions that agree on those boards give the same
    loops. *)
Lemma forEachCapture_calls_smaller
    (recurse recurse' : World -> Board -> list Capture -> Color -> option World) :
  (forall w b hist c,
      List.length this = S (List.length b) -> recurse w b hist c = recurse' w b hist c) ->
  forall captures w,
    forEachCapture recurse this history turnColor captures w
    = forEachCapture recurse' this history turnColor captures w.
Proof.
  intros A captures. induction captures as [ | capture rest IH]; intros w; [reflexivity | ].
  cbn [forEachCapture].
  pose proof (Board_clone_length w this) as L.
  destruct (Board_clone w this) as [w1 newBoard]. cbn [snd] in L.
  destruct (applyCapture (objects w1) newBoard capture) as [[h2 newBoard2] result] eqn:E.
  destruct result.
  - apply applyCapture_true_length in E.
    rewrite <- A by congruence.
    destruct (recurse _ _ _ _); [apply IH | reflexivity].
  - apply IH.
Qed.

Lemma forEachPiece_calls_smaller
    (recurse recurse' : World -> Board -> list Capture -> Color -> option World) :
  (forall w b hist c,
      List.length this = S (List.length b) -> recurse w b hist c = recurse' w b hist c) ->
  forall pieces w movePossible,
    forEachPiece recurse this history turnColor pieces w movePossible
    = forEachPiece recurse' this history turnColor pieces w movePossible.
Proof.
  intros A pieces. induction pieces as [ | piece rest IH]; intros w movePossible;
    [reflexivity | ].
  cbn [forEachPiece]. destruct (Color_eqb _ _); [ | apply IH].
  rewrite (forEachCapture_calls_smaller recurse recurse' A).
  destruct (forEachCapture recurse' _ _ _ _ _); [apply IH | reflexivity].
Qed.

Lemma forEachCapture_total
    (recurse : World -> Board -> list Capture -> Color -> option World) :
  (forall w b hist c,
      List.length this = S (List.length b) -> exists w', recurse w b hist c = Some w') ->
  forall captures w,
    exists w', forEachCapture recurse this history turnColor captures w = Some w'.
Proof.
  intros A captures. induction captures as [ | capture rest IH]; intros w;
    [exists w; reflexivity | ].
  cbn [forEachCapture].
  pose proof (Board_clone_length w this) as L.
  destruct (Board_clone w this) as [w1 newBoard]. cbn [snd] in L.
  destruct (applyCapture (objects w1) newBoard capture) as [[h2 newBoard2] result] eqn:E.
  destruct result.
  - apply applyCapture_true_length in E.
    destruct (A (setObjects w1 h2) newBoard2 (history ++ [capture]) (nextColor turnColor))
      as [w3 ->]; [congruence | ].
    apply IH.
  - apply IH.
Qed.

Lemma forEachPiece_total
    (recurse : World -> Board -> list Capture -> Color -> option World) :
  (forall w b hist c,
      List.length this = S (List.length b) -> exists w', recurse w b hist c = Some w') ->
  forall pieces w movePossible,
    exists r, forEachPiece recurse this history turnColor pieces w movePossible = Some r.
Proof.
  intros A pieces. induction pieces as [ | piece rest IH]; intros w movePossible;
    [eexists; reflexivity | ].
  cbn [forEachPiece]. destruct (Color_eqb _ _); [ | apply IH].
  destruct (forEachCapture_total recurse A
              (getPossibleCaptures (objects w) this piece) w) as [w' ->].
  apply IH.
Qed.
End LoopsCallSmallerBoards.

Lemma solveRecursive_enough_depth (depth : nat) :
  forall w this history turnColor,
    (1 <= depth)%nat -> (List.length this <= depth)%nat ->
    exists w', solveRecursive depth w this history turnColor = Some w'.
Proof.
  induction depth as [ | depth IH]; intros w this history turnColor H1 HL; [lia | ].
  cbn [solveRecursive].
  destruct (Nat.eqb_spec (List.length this) 1) as [E | N]; [eexists; reflexivity | ].
  destruct (forEachPiece_total this history turnColor (solveRecursive depth)) with
    (pieces := this) (w := w) (movePossible := false) as [[w' mp] ->].
  - intros w0 b hist c Hb. apply IH; lia.
  - eexists; reflexivity.
Qed.

Lemma newPieces_length (ps : list Piece.t) (w : World) :
  List.length (snd (newPieces w ps)) = List.length ps.
Proof.
  revert w. induction ps as [ | p ps IH]; intros w; [reflexivity | ].
  cbn [newPieces]. destruct (newPiece w p) as [w1 l].
  specialize (IH w1). destruct (newPieces w1 ps) as [w2 ls].
  cbn [snd List.length] in *. rewrite IH. reflexivity.
Qed.

(** The script comes to its end. *)
Lemma main_returns : exists w, main = Some w.
Proof.
  unfold main. pose proof (newPieces_length puzzle emptyWorld) as L.
  destruct (newPieces emptyWorld puzzle) as [w board]. cbn [snd] in L.
  apply solveRecursive_enough_depth; [cbn; lia | lia].
Qed.

(** C7: the search returns on every board.  A nesting depth of the piece
    count minus one below the first call is enough (the first call itself
    is the [S]); the loops hand to the recursive call only boards with
    exactly one piece fewer than the caller's, whatever function stands for
    the recursive call; and [applyCapture] returns true only when the board
    it leaves has exactly one piece fewer. *)
Theorem solveRecursive_terminates (w : World) (this : Board)
    (history : list Capture) (turnColor : Color) :
  (exists w',
      solveRecursive (S (List.length this - 1)) w this history turnColor = Some w')
  /\ (forall recurse recurse' : World -> Board -> list Capture -> Color -> option World,
        (forall w0 b hist c,
            List.length this = S (List.length b) ->
            recurse w0 b hist c = recurse' w0 b hist c) ->
        forEachPiece recurse this history turnColor this w false
        = forEachPiece recurse' this history turnColor this w false)
  /\ (forall h pieces capture h' pieces',
        applyCapture h pieces capture = (h', pieces', true) ->
        List.length pieces = S (List.length pieces')).
Proof.
  split; [ | split].
  - apply solveRecursive_enough_depth; lia.
  - intros recurse recurse' A. apply forEachPiece_calls_smaller. exact A.
  - intros h pieces capture h' pieces'. apply applyCapture_true_length.
Qed.

(** ** The search: dead ends *)

Lemma Color_eqb_spec (a b : Color) : reflect (a = b) (Color_eqb a b).
Proof. destruct a, b; constructor; congruence. Qed.

Section DeadEnd.
Variable recurse : World -> Board -> list Capture -> Color -> option World.
Variable this : Board.
Variable history : list Capture.
Variable turnColor : Color.

Lemma forEachPiece_without_captures (pieces : Board) (w : World) (movePossible : bool) :
  (forall piece, In piece pieces ->
                 Piece.color (objects w piece) = turnColor ->
                 getPossibleCaptures (objects w) this piece = []) ->
  forEachPiece recurse this history turnColor pieces w movePossible
  = Some (w, movePossible).
Proof.
  induction pieces as [ | piece rest IH]; intros A; [reflexivity | ].
  cbn [forEachPiece].
  destruct (Color_eqb_spec (Piece.color (objects w piece)) turnColor) as [E | N].
  - rewrite (A piece (or_introl eq_refl) E). cbn.
    apply IH. intros p Ip. apply A. right. exact Ip.
  - apply IH. intros p Ip. apply A. right. exact Ip.
Qed.

Lemma forEachPiece_keeps_true (pieces : Board) (w w' : World) (movePossible : bool) :
  forEachPiece recurse this history turnColor pieces w true = Some (w', movePossible) ->
  movePossible = true.
Proof.
  revert w. induction pieces as [ | piece rest IH]; intros w; cbn [forEachPiece].
  - intros [= _ <-]. reflexivity.
  - destruct (Color_eqb _ _); [ | apply IH].
    destruct (forEachCapture _ _ _ _ _ _) as [w1 | ]; [ | discriminate].
    destruct (0 <? _)%nat; apply IH.
Qed.

Lemma forEachPiece_with_capture (pieces : Board) (w w' : World)
    (movePossible movePossible' : bool) :
  (exists piece, In piece pieces
                 /\ Piece.color (objects w piece) = turnColor
                 /\ getPossibleCaptures (objects w) this piece <> []) ->
  forEachPiece recurse this history turnColor pieces w movePossible
  = Some (w', movePossible') ->
  movePossible' = true.
Proof.
  induction pieces as [ | piece rest IH]; intros (p & Ip & Cp & Gp);
    [destruct Ip | ].
  cbn [forEachPiece].
  destruct (Color_eqb_spec (Piece.color (objects w piece)) turnColor) as [E | N].
  - destruct (getPossibleCaptures (objects w) this piece) as [ | c cs] eqn:G.
    + cbn. apply IH. destruct Ip as [<- | Ip]; [congruence | ].
      exists p. repeat split; assumption.
    + destruct (forEachCapture _ _ _ _ _ _) as [w1 | ]; [ | discriminate].
      cbn. apply forEachPiece_keeps_true.
  - apply IH. destruct Ip as [<- | Ip]; [congruence | ].
    exists p. repeat split; assumption.
Qed.
End DeadEnd.

(** C3: on a board with more than one piece, when no piece of the side to
    move has a capture the call adds exactly one to the dead-end counter
    and does nothing else (the solutions counter, the console and the
    objects are as they were), and it does so at any depth bound, so
    without any recursive call; when some piece of the side to move has a
    capture, the call leaves the state as its loops left it, adding
    nothing to the dead-end counter itself.  One of the two cases holds,
    and the condition is on the captures generated, not on how applying
    them went. *)
Theorem solveRecursive_dead_end (w : World) (this : Board)
    (history : list Capture) (turnColor : Color) :
  (1 < List.length this)%nat ->
  (noCapture w this turnColor ->
   forall depth,
     solveRecursive (S depth) w this history turnColor = Some (incrDeadEnd w)
     /\ exists w',
          solveRecursive (S depth) w this history turnColor = Some w'
          /\ deadEndCount w' = S (deadEndCount w)
          /\ solutionsCount w' = solutionsCount w
          /\ console w' = console w
          /\ nextLoc w' = nextLoc w
          /\ forall l, objects w' l = objects w l)
  /\ (someCapture w this turnColor ->
      forall depth w',
        solveRecursive (S depth) w this history turnColor = Some w' ->
        forEachPiece (solveRecursive depth) this history turnColor this w false
        = Some (w', true)
        /\ exists w1,
             forEachPiece (solveRecursive depth) this history turnColor this w false
             = Some (w1, true)
             /\ deadEndCount w' = deadEndCount w1
             /\ solutionsCount w' = solutionsCount w1
             /\ console w' = console w1)
  /\ (noCapture w this turnColor \/ someCapture w this turnColor).
Proof.
  intros L.
  assert (N : Nat.eqb (List.length this) 1 = false) by (apply Nat.eqb_neq; lia).
  split; [ | split].
  - intros A depth.
    assert (R : solveRecursive (S depth) w this history turnColor
                = Some (incrDeadEnd w)).
    { cbn [solveRecursive]. rewrite N.
      rewrite forEachPiece_without_captures by exact A. reflexivity. }
    split; [exact R | ].
    exists (incrDeadEnd w). split; [exact R | ].
    cbn. repeat split.
  - intros A depth w'. cbn [solveRecursive]. rewrite N.
    destruct (forEachPiece _ _ _ _ _ _ _) as [[w1 mp] | ] eqn:E; [ | discriminate].
    rewrite (forEachPiece_with_capture _ _ _ _ _ _ _ _ _ A E).
    intros [= <-]. split; [reflexivity | ].
    exists w1. repeat split.
  - unfold noCapture, someCapture. generalize this at 1 3 as pieces.
    induction pieces as [ | p ps [IH | IH]].
    + left. intros piece [].
    + destruct (Color_eqb_spec (Piece.color (objects w p)) turnColor) as [E | NE].
      * destruct (getPossibleCaptures (objects w) this p) eqn:G.
        -- left. intros piece [<- | I] C; [exact G | apply IH; assumption].
        -- right. exists p. repeat split; [left; reflexivity | exact E | congruence].
      * left. intros piece [<- | I] C; [contradiction | apply IH; assumption].
    + right. destruct IH as (piece & I & C & G). exists piece.
      repeat split; [right; exact I | exact C | exact G].
Qed.

(** ** The search: turn alternation *)

Lemma alternating_app (turn : Color) (cs : list Color) (c : Color) :
  alternating turn cs -> c = turnAfter turn cs -> alternating turn (cs ++ [c]).
Proof.
  revert turn. induction cs as [ | c0 cs IH]; intros turn A E; cbn in *.
  - split; [exact E | exact I].
  - destruct A as [-> A]. split; [reflexivity | apply IH; assumption].
Qed.

Lemma turnAfter_app (turn : Color) (cs : list Color) (c : Color) :
  turnAfter turn (cs ++ [c]) = nextColor (turnAfter turn cs).
Proof.
  revert turn. induction cs as [ | c0 cs IH]; intros turn; cbn; [reflexivity | apply IH].
Qed.

Lemma alternating_nth (turn : Color) (cs : list Color) (i : nat) (c : Color) :
  alternating turn cs -> nth_error cs i = Some c ->
  c = if Nat.even i then turn else nextColor turn.
Proof.
  revert turn i. induction cs as [ | c0 cs IH]; intros turn i A E.
  - destruct i; discriminate.
  - destruct A as [-> A]. destruct i as [ | i]; cbn in E.
    + injection E as <-. reflexivity.
    + specialize (IH _ _ A E). rewrite Nat.even_succ, <- Nat.negb_even.
      destruct (Nat.even i), turn; cbn in *; exact IH.
Qed.

Lemma extends_refl (w : World) : extends w w.
Proof.
  split; [lia | split; [reflexivity | ]].
  exists []. rewrite app_nil_r. split; [reflexivity | constructor].
Qed.

Lemma extends_trans (w1 w2 w3 : World) :
  extends w1 w2 -> extends w2 w3 -> extends w1 w3.
Proof.
  intros (N1 & C1 & n1 & E1 & G1) (N2 & C2 & n2 & E2 & G2).
  split; [lia | split].
  - intros l Hl. rewrite C2 by lia. apply C1. exact Hl.
  - exists (n1 ++ n2). rewrite E2, E1, app_assoc. split; [reflexivity | ].
    apply Forall_app. split; assumption.
Qed.

Lemma allocated_extends (w w' : World) (ls : list loc) :
  extends w w' -> allocated w ls -> allocated w' ls.
Proof.
  intros (N & _) A. unfold allocated in *. rewrite Forall_forall in *.
  intros l Il. specialize (A l Il). lia.
Qed.

Lemma attackerColors_extends (w w' : World) (history : list Capture) :
  extends w w' -> allocated w (map attacker history) ->
  attackerColors (objects w') history = attackerColors (objects w) history.
Proof.
  intros (_ & C & _) A. unfold attackerColors. apply map_ext_in. intros c Ic.
  apply C. unfold allocated in A. rewrite Forall_forall in A. apply A.
  apply in_map. exact Ic.
Qed.

Lemma historyOk_extends (w w' : World) (history : list Capture) (turnColor : Color) :
  extends w w' -> historyOk w history turnColor -> historyOk w' history turnColor.
Proof.
  intros X (A & L & T). unfold historyOk.
  rewrite (attackerColors_extends w w' history X A).
  split; [exact (allocated_extends w w' _ X A) | split; assumption].
Qed.

Lemma historyOk_push (w : World) (history : list Capture) (turnColor : Color)
    (capture : Capture) :
  historyOk w history turnColor ->
  (attacker capture < nextLoc w)%nat ->
  Piece.color (objects w (attacker capture)) = turnColor ->
  historyOk w (history ++ [capture]) (nextColor turnColor).
Proof.
  intros (A & L & T) Hl Hc. unfold historyOk, attackerColors in *.
  rewrite !map_app. cbn [map]. split; [ | split].
  - apply Forall_app. split; [exact A | constructor; [exact Hl | constructor]].
  - apply alternating_app; [exact L | congruence].
  - rewrite turnAfter_app. congruence.
Qed.

Lemma Piece_clone_spec (w : World) (this : loc) :
  let w1 := fst (Piece_clone w this) in
  snd (Piece_clone w this) = nextLoc w
  /\ nextLoc w1 = S (nextLoc w)
  /\ (forall l, l <> nextLoc w -> objects w1 l = objects w l)
  /\ objects w1 (nextLoc w) = objects w this
  /\ console w1 = console w
  /\ solutionsCount w1 = solutionsCount w
  /\ deadEndCount w1 = deadEndCount w.
Proof.
  cbn. repeat split.
  - intros l N. destruct (Nat.eqb_spec l (nextLoc w)); [contradiction | reflexivity].
  - rewrite Nat.eqb_refl. destruct (objects w this). reflexivity.
Qed.

Lemma Board_clone_spec (pieces : Board) :
  forall w w1 newBoard,
    Board_clone w pieces = (w1, newBoard) ->
    newBoard = seq (nextLoc w) (List.length pieces)
    /\ nextLoc w1 = (nextLoc w + List.length pieces)%nat
    /\ (forall l, (l < nextLoc w)%nat -> objects w1 l = objects w l)
    /\ console w1 = console w
    /\ solutionsCount w1 = solutionsCount w
    /\ deadEndCount w1 = deadEndCount w.
Proof.
  induction pieces as [ | piece rest IH]; intros w w1 newBoard E; cbn [Board_clone] in E.
  - injection E as <- <-. cbn. repeat split. lia.
  - destruct (Piece_clone_spec w piece) as (P1 & P2 & P3 & _ & P4 & P5 & P6).
    destruct (Piece_clone w piece) as [wa piece']. cbn [fst snd] in *.
    destruct (Board_clone wa rest) as [wb rest'] eqn:R.
    injection E as <- <-.
    destruct (IH _ _ _ R) as (I1 & I2 & I3 & I4 & I5 & I6).
    cbn [List.length seq]. split; [rewrite P1, I1, P2; reflexivity | ].
    split; [lia | ].
    split; [intros l Hl; rewrite I3 by lia; apply P3; lia | ].
    repeat split; congruence.
Qed.

Lemma removeTarget_Forall (P : loc -> Prop) (h : Heap) (capture : Capture) (pieces : Board) :
  Forall P pieces -> Forall P (removeTarget h capture pieces).
Proof.
  induction 1 as [ | l ls Pl F IH]; cbn [removeTarget]; [constructor | ].
  destruct (String.eqb _ _); [exact F | constructor; assumption].
Qed.

Lemma slideLoop_attacker (h : Heap) (board : Board) (this : loc) (move : Move.t)
    (todo : nat) (i : Z) :
  Forall (fun c => attacker c = this) (slideLoop h board this move i todo).
Proof.
  revert i. induction todo as [ | todo IH]; intros i; cbn [slideLoop]; [constructor | ].
  destruct (calculatePosition _ move i) as [p | ]; [ | apply IH].
  destruct (findPiece h board p); [ | apply IH].
  destruct (negb _); repeat constructor.
Qed.

Lemma getPossibleCaptures_attacker (h : Heap) (board : Board) (this : loc) :
  Forall (fun c => attacker c = this) (getPossibleCaptures h board this).
Proof.
  unfold getPossibleCaptures. apply Forall_flat_map, Forall_forall. intros move _.
  unfold capturesForMove, jumpCaptures, slideCaptures.
  destruct (Move.type move); [ | apply slideLoop_attacker].
  destruct (calculatePosition _ move 1) as [p | ]; [ | constructor].
  destruct (findPiece h board p); [ | constructor].
  destruct (negb _); repeat constructor.
Qed.

(** Cloning and applying a capture lead to a state that comes after. *)
Lemma clone_apply_extends (w w1 : World) (this newBoard newBoard2 : Board)
    (capture : Capture) (h2 : Heap) (result : bool) :
  Board_clone w this = (w1, newBoard) ->
  applyCapture (objects w1) newBoard capture = (h2, newBoard2, result) ->
  extends w (setObjects w1 h2) /\ allocated (setObjects w1 h2) newBoard2.
Proof.
  intros C A. destruct (Board_clone_spec _ _ _ _ C) as (B1 & B2 & B3 & B4 & _).
  unfold applyCapture in A. injection A as <- <- _.
  split.
  - split; [cbn; lia | split].
    + intros l Hl. cbn. rewrite relocateAttacker_color, B3 by assumption. reflexivity.
    + exists []. cbn. rewrite app_nil_r. split; [exact B4 | constructor].
  - unfold allocated. apply removeTarget_Forall. cbn. rewrite B1, B2.
    apply Forall_forall. intros l Il. apply in_seq in Il. lia.
Qed.

Section Alternation.
Variable recurse : World -> Board -> list Capture -> Color -> option World.
Hypothesis recurse_ok : recurseExtends recurse.
Variable this : Board.
Variable history : list Capture.
Variable turnColor : Color.

Lemma forEachCapture_extends (captures : list Capture) :
  forall w w',
    forEachCapture recurse this history turnColor captures w = Some w' ->
    historyOk w history turnColor ->
    Forall (fun c => (attacker c < nextLoc w)%nat
                     /\ Piece.color (objects w (attacker c)) = turnColor) captures ->
    extends w w'.
Proof.
  induction captures as [ | capture rest IH]; intros w w' E H F; cbn [forEachCapture] in E.
  - injection E as <-. apply extends_refl.
  - destruct (Board_clone w this) as [w1 newBoard] eqn:C.
    destruct (applyCapture (objects w1) newBoard capture) as [[h2 newBoard2] result] eqn:A.
    destruct (clone_apply_extends _ _ _ _ _ _ _ _ C A) as [X2 A2].
    apply Forall_cons_iff in F. destruct F as [[Hl Hc] F'].
    assert (X3 : exists w3,
               (if result
                then recurse (setObjects w1 h2) newBoard2 (history ++ [capture])
                             (nextColor turnColor)
                else Some (consoleLog (setObjects w1 h2) LogMoveFailed)) = Some w3
               /\ extends w w3).
    { destruct result.
      - destruct (recurse _ _ _ _) as [w3 | ] eqn:R; [ | discriminate].
        exists w3. split; [reflexivity | ].
        apply (extends_trans _ _ _ X2). apply (recurse_ok _ _ _ _ _ R A2).
        apply (historyOk_extends w _ _ _ X2). apply historyOk_push; assumption.
      - eexists. split; [reflexivity | ].
        apply (extends_trans _ _ _ X2).
        split; [cbn; lia | split; [reflexivity | ]].
        exists [LogMoveFailed]. split; [reflexivity | repeat constructor]. }
    destruct X3 as (w3 & R3 & X3). cbv zeta in E. rewrite R3 in E.
    apply (extends_trans _ _ _ X3). apply (IH _ _ E).
    + exact (historyOk_extends _ _ _ _ X3 H).
    + destruct X3 as (N3 & C3 & _). rewrite Forall_forall in *.
      intros c Ic. destruct (F' c Ic) as [Hl' Hc'].
      split; [lia | rewrite C3 by assumption; exact Hc'].
Qed.

Lemma forEachPiece_extends (pieces : Board) :
  forall w movePossible w' movePossible',
    forEachPiece recurse this history turnColor pieces w movePossible
    = Some (w', movePossible') ->
    allocated w pieces ->
    historyOk w history turnColor ->
    extends w w'.
Proof.
  induction pieces as [ | piece rest IH]; intros w mp w' mp' E A H;
    cbn [forEachPiece] in E.
  - injection E as <- _. apply extends_refl.
  - apply Forall_cons_iff in A. destruct A as [Hp A'].
    destruct (Color_eqb_spec (Piece.color (objects w piece)) turnColor) as [Ec | Nc].
    + destruct (forEachCapture _ _ _ _ _ _) as [w1 | ] eqn:Q; [ | discriminate].
      assert (X : extends w w1).
      { apply (forEachCapture_extends _ _ _ Q H).
        pose proof (getPossibleCaptures_attacker (objects w) this piece) as G.
        rewrite Forall_forall in *. intros c Ic. rewrite (G c Ic).
        split; assumption. }
      apply (extends_trans _ _ _ X). apply (IH _ _ _ _ E).
      * exact (allocated_extends _ _ _ X A').
      * exact (historyOk_extends _ _ _ _ X H).
    + apply (IH _ _ _ _ E); assumption.
Qed.
End Alternation.

Lemma solveRecursive_extends (depth : nat) : recurseExtends (solveRecursive depth).
Proof.
  induction depth as [ | depth IH]; intros w this history turnColor w' E A H;
    cbn [solveRecursive] in E; [discriminate | ].
  destruct (Nat.eqb (List.length this) 1).
  - injection E as <-. split; [cbn; lia | split; [reflexivity | ]].
    exists [LogSolved (printHistory (objects w) history)]. split; [reflexivity | ].
    constructor; [ | constructor]. cbn.
    destruct H as (_ & L & _). unfold lineColors, printHistory.
    rewrite map_map. exact L.
  - destruct (forEachPiece _ _ _ _ _ _ _) as [[w1 mp] | ] eqn:Q; [ | discriminate].
    pose proof (forEachPiece_extends _ IH _ _ _ _ _ _ _ _ Q A H) as X.
    injection E as <-. destruct (negb mp); [ | exact X].
    apply (extends_trans _ _ _ X).
    split; [cbn; lia | split; [reflexivity | ]].
    exists []. cbn. rewrite app_nil_r. split; [reflexivity | constructor].
Qed.

(** C6: in every capture sequence that a search started by [solve] prints
    as a solution, the attacker of the line at an even index (counting
    from 0) is White and the attacker of the line at an odd index is Black:
    the colors alternate, beginning with White, whichever pieces capture.
    The board's references must point to objects that exist. *)
Theorem solve_solutions_alternate (depth : nat) (w w' : World) (this : Board) :
  allocated w this ->
  solve depth w this = Some w' ->
  exists new,
    console w' = console w ++ new
    /\ forall lines,
         In (LogSolved lines) new ->
         forall i line,
           nth_error lines i = Some line ->
           Piece.color (fst line) = if Nat.even i then White else Black.
Proof.
  intros A E. unfold solve in E.
  assert (H : historyOk w [] White) by (repeat split; constructor).
  destruct (solveRecursive_extends depth _ _ _ _ _ E A H) as (_ & _ & new & Ec & G).
  exists new. split; [exact Ec | ].
  intros lines I i line N. rewrite Forall_forall in G. specialize (G _ I). cbn in G.
  apply (alternating_nth White (lineColors lines) i).
  - exact G.
  - unfold lineColors. rewrite nth_error_map, N. reflexivity.
Qed.

(** ** The search on a board of two pieces *)

Lemma moveOptions_nonzero (type : PieceType) (color : Color) :
  Forall nonzero (moveOptions type color).
Proof.
  destruct type, color; cbn [moveOptions];
    repeat (apply Forall_cons; [ | ]); try apply Forall_nil;
    unfold nonzero; cbn [Move.directionX Move.directionY]; lia.
Qed.

Lemma stepsOf_positive (move : Move.t) (i : Z) : In i (stepsOf move) -> 1 <= i <= 7.
Proof.
  unfold stepsOf. destruct (Move.type move); cbn; intuition lia.
Qed.

(** In a move table, the direction and step count that cover an offset are
    the only ones that do. *)
Lemma moveOptions_reach_once (type : PieceType) (color : Color) (move : Move.t) (i : Z) :
  In move (moveOptions type color) ->
  In i (stepsOf move) ->
  filter (fun m => reaches m (i * Move.directionX move) (i * Move.directionY move))
         (moveOptions type color)
  = [move].
Proof.
  intros Im Ii.
  destruct type, color; cbn [moveOptions In] in Im;
    repeat (destruct Im as [Im | Im]; [subst move | ]); try contradiction;
    cbn [stepsOf Move.type In] in Ii;
    repeat (destruct Ii as [Ii | Ii]; [subst i | ]); try contradiction;
    vm_compute; reflexivity.
Qed.

Lemma flat_map_filter {A B : Type} (f : A -> bool) (c : B) (l : list A) :
  flat_map (fun m => if f m then [c] else []) l = map (fun _ => c) (filter f l).
Proof.
  induction l as [ | x l IH]; [reflexivity | ].
  cbn. destruct (f x); cbn; rewrite IH; reflexivity.
Qed.

Lemma flat_map_agree {A B : Type} (P : A -> Prop) (f g : A -> list B) (l : list A) :
  Forall P l -> (forall x, P x -> f x = g x) -> flat_map f l = flat_map g l.
Proof.
  intros F E. induction F as [ | x l Px F IH]; [reflexivity | ].
  cbn. rewrite IH, (E x Px). reflexivity.
Qed.

Section TwoPieces.
Variable h : Heap.
Variable board : Board.
Variables a b : loc.
Variables xa ya xb yb : Z.
Hypothesis board_two : board = [a; b] \/ board = [b; a].
Hypothesis position_a : Piece.position (h a) = encode xa ya.
Hypothesis position_b : Piece.position (h b) = encode xb yb.
Hypothesis onBoard_a : onBoard xa ya.
Hypothesis onBoard_b : onBoard xb yb.
Hypothesis opposing : Color_eqb (Piece.color (h b)) (Piece.color (h a)) = false.

Lemma encode_eqb (x y x' y' : Z) :
  onBoard x y -> onBoard x' y' ->
  String.eqb (encode x y) (encode x' y') = (x =? x') && (y =? y').
Proof.
  intros B B'. destruct (String.eqb_spec (encode x y) (encode x' y')) as [E | N].
  - apply encode_inj in E; try assumption. lia.
  - destruct (Z.eqb_spec x x'), (Z.eqb_spec y y'); try reflexivity.
    subst. contradiction.
Qed.

Lemma findPiece_two (x y : Z) :
  onBoard x y -> (x <> xa \/ y <> ya) ->
  findPiece h board (encode x y) = if (x =? xb) && (y =? yb) then Some b else None.
Proof.
  intros B N.
  assert (Ea : String.eqb (Piece.position (h a)) (encode x y) = false).
  { rewrite position_a, encode_eqb by assumption. lia. }
  assert (Eb : String.eqb (Piece.position (h b)) (encode x y) = (x =? xb) && (y =? yb)).
  { rewrite position_b, encode_eqb by assumption. f_equal; apply Z.eqb_sym. }
  unfold findPiece. destruct board_two as [-> | ->]; cbn [fold_left]; rewrite Ea, Eb.
  - reflexivity.
  - destruct ((x =? xb) && (y =? yb)); reflexivity.
Qed.

Lemma probe_hit (move : Move.t) (i : Z) :
  nonzero move -> 1 <= i ->
  probe h board a move i = if hit move (xb - xa) (yb - ya) i then Some b else None.
Proof.
  intros N Hi. unfold probe, hit.
  rewrite position_a, calculatePosition_encode by assumption. cbv zeta.
  destruct (inRange _ _) eqn:R.
  - apply inRange_onBoard in R. rewrite findPiece_two; [ | exact R | unfold nonzero in N; nia].
    replace (xa + i * Move.directionX move =? xb)
      with (i * Move.directionX move =? xb - xa)
      by (destruct (Z.eqb_spec (i * Move.directionX move) (xb - xa)),
                   (Z.eqb_spec (xa + i * Move.directionX move) xb); lia).
    replace (ya + i * Move.directionY move =? yb)
      with (i * Move.directionY move =? yb - ya)
      by (destruct (Z.eqb_spec (i * Move.directionY move) (yb - ya)),
                   (Z.eqb_spec (ya + i * Move.directionY move) yb); lia).
    reflexivity.
  - destruct (_ && _) eqn:E; [exfalso | reflexivity].
    assert (C : inRange (xa + i * Move.directionX move) (ya + i * Move.directionY move) = true).
    { apply inRange_onBoard. unfold onBoard in *. lia. }
    congruence.
Qed.

Lemma jumpCaptures_two (move : Move.t) :
  nonzero move ->
  jumpCaptures h board a move
  = if hit move (xb - xa) (yb - ya) 1 then [mkCapture a b] else [].
Proof.
  intros N. pose proof (probe_hit move 1 N ltac:(lia)) as P.
  unfold probe in P. unfold jumpCaptures.
  destruct (calculatePosition _ move 1) as [p | ].
  - rewrite P. destruct (hit _ _ _ _); [ | reflexivity].
    rewrite opposing. reflexivity.
  - destruct (hit _ _ _ _); [discriminate | reflexivity].
Qed.

Lemma slideLoop_two (move : Move.t) (todo : nat) (i : Z) :
  nonzero move -> 1 <= i ->
  slideLoop h board a move i todo
  = if hitFrom move (xb - xa) (yb - ya) i todo then [mkCapture a b] else [].
Proof.
  intros N. revert i. induction todo as [ | todo IH]; intros i Hi; [reflexivity | ].
  cbn [slideLoop hitFrom]. pose proof (probe_hit move i N Hi) as P. unfold probe in P.
  destruct (calculatePosition _ move i) as [p | ].
  - rewrite P. destruct (hit _ _ _ _); cbn [orb].
    + rewrite opposing. reflexivity.
    + apply IH. lia.
  - destruct (hit _ _ _ _); [discriminate | ]. cbn [orb]. apply IH. lia.
Qed.

Lemma capturesForMove_two (move : Move.t) :
  nonzero move ->
  capturesForMove h board a move
  = if reaches move (xb - xa) (yb - ya) then [mkCapture a b] else [].
Proof.
  intros N. unfold capturesForMove, reaches, stepsOf.
  destruct (Move.type move).
  - rewrite jumpCaptures_two by assumption. cbn [existsb]. rewrite orb_false_r. reflexivity.
  - unfold slideCaptures. rewrite slideLoop_two by (assumption || lia).
    cbn [hitFrom existsb]. reflexivity.
Qed.

Lemma getPossibleCaptures_two :
  canReach h a b -> getPossibleCaptures h board a = [mkCapture a b].
Proof.
  intros (move & i & Im & Ii & C).
  rewrite position_a, position_b, calculatePosition_encode in C by assumption.
  cbv zeta in C. destruct (inRange _ _) eqn:R; [ | discriminate].
  apply inRange_onBoard in R.
  apply (f_equal (fun o => match o with Some s => s | None => EmptyString end)) in C.
  cbv beta iota in C. apply encode_inj in C; try assumption. destruct C as [Cx Cy].
  unfold getPossibleCaptures.
  rewrite (flat_map_agree nonzero _
             (fun m => if reaches m (xb - xa) (yb - ya) then [mkCapture a b] else [])
             _ (moveOptions_nonzero _ _) capturesForMove_two).
  rewrite flat_map_filter.
  replace (xb - xa) with (i * Move.directionX move) by lia.
  replace (yb - ya) with (i * Move.directionY move) by lia.
  rewrite (moveOptions_reach_once _ _ move i Im Ii). reflexivity.
Qed.
End TwoPieces.

Lemma solveRecursive_unfold (depth : nat) (w : World) (this : Board)
    (history : list Capture) (turnColor : Color) :
  solveRecursive (S depth) w this history turnColor =
    if Nat.eqb (List.length this) 1
    then Some (incrSolutions
                 (consoleLog w (LogSolved (printHistory (objects w) history))))
    else
      match forEachPiece (solveRecursive depth) this history turnColor this w false with
      | Some (w', movePossible) =>
          Some (if negb movePossible then incrDeadEnd w' else w')
      | None => None
      end.
Proof. reflexivity. Qed.

(** On a board of the two pieces [a] and [b], apply the capture of [b] by
    [a] on a clone and follow the recursive call: it prints the solution. *)
Lemma single_capture_run (d : nat) (w : World) (this : Board) (a b : loc) :
  this = [a; b] \/ this = [b; a] ->
  (a < nextLoc w)%nat -> (b < nextLoc w)%nat ->
  Piece.position (objects w a) <> Piece.position (objects w b) ->
  exists w3,
    forEachCapture (solveRecursive (S d)) this [] White [mkCapture a b] w = Some w3
    /\ solutionsCount w3 = S (solutionsCount w)
    /\ deadEndCount w3 = deadEndCount w
    /\ console w3 = console w ++ [LogSolved [(objects w a, objects w b)]]
    /\ forall l, (l < nextLoc w)%nat -> objects w3 l = objects w l.
Proof.
  intros O La Lb N.
  assert (Ea : Nat.eqb a (nextLoc w) = false) by (apply Nat.eqb_neq; lia).
  assert (Ea' : Nat.eqb a (S (nextLoc w)) = false) by (apply Nat.eqb_neq; lia).
  assert (Eb : Nat.eqb b (nextLoc w) = false) by (apply Nat.eqb_neq; lia).
  assert (Eb' : Nat.eqb b (S (nextLoc w)) = false) by (apply Nat.eqb_neq; lia).
  assert (En : Nat.eqb (nextLoc w) (S (nextLoc w)) = false) by (apply Nat.eqb_neq; lia).
  assert (En' : Nat.eqb (S (nextLoc w)) (nextLoc w) = false) by (apply Nat.eqb_neq; lia).
  assert (Sab : String.eqb (Piece.position (objects w a)) (Piece.position (objects w b)) = false)
    by (apply String.eqb_neq; exact N).
  assert (Sba : String.eqb (Piece.position (objects w b)) (Piece.position (objects w a)) = false)
    by (apply String.eqb_neq; congruence).
  destruct O as [-> | ->];
    cbn -[String.eqb Nat.eqb Z.eqb Z.of_nat];
    repeat (rewrite ?Ea, ?Ea', ?Eb, ?Eb', ?En, ?En', ?Nat.eqb_refl, ?Sab, ?Sba,
              ?String.eqb_refl;
            cbn -[String.eqb Nat.eqb Z.eqb Z.of_nat]);
    change (Z.of_nat 1 =? Z.of_nat 2 - 1) with true; cbv iota;
    (eexists; split; [reflexivity | ]);
    cbn -[String.eqb Nat.eqb]; unfold setPosition;
    rewrite ?Ea, ?Ea', ?Eb, ?Eb';
    (repeat split; intros l Hl;
     destruct (Nat.eqb_spec l (nextLoc w)); [lia | ];
     destruct (Nat.eqb_spec l (S (nextLoc w))); [lia | ]; reflexivity).
Qed.

(** C4, as the code has it: on a board of exactly two pieces, a White one
    and a Black one on valid squares, where the White piece's move table
    has a direction that, with one of its step counts, lands exactly on
    the Black piece's square, the search started with fresh counters ends
    with one solution and no dead end, and the only thing printed is one
    solution of one capture, of the Black piece by the White piece. *)
Theorem two_piece_search_white_reaches_black
    (d : nat) (w : World) (this : Board) (a b : loc) :
  this = [a; b] \/ this = [b; a] ->
  allocated w this ->
  Piece.color (objects w a) = White ->
  Piece.color (objects w b) = Black ->
  validLabel (Piece.position (objects w a)) ->
  validLabel (Piece.position (objects w b)) ->
  canReach (objects w) a b ->
  solutionsCount w = O -> deadEndCount w = O -> console w = [] ->
  exists w',
    solve (S (S d)) w this = Some w'
    /\ solutionsCount w' = 1%nat
    /\ deadEndCount w' = O
    /\ console w' = [LogSolved [(objects w a, objects w b)]].
Proof.
  intros O A Ca Cb Va Vb R S0 D0 K0.
  assert (La : (a < nextLoc w)%nat /\ (b < nextLoc w)%nat).
  { unfold allocated in A. rewrite Forall_forall in A.
    split; apply A; destruct O as [-> | ->]; simpl; auto. }
  destruct La as [La Lb].
  assert (N : Piece.position (objects w a) <> Piece.position (objects w b)).
  { destruct R as (move & i & Im & Ii & C). intros E. rewrite <- E in C.
    apply (calculatePosition_moves _ move i Va) in C; [exact C | | ].
    - apply stepsOf_positive in Ii. lia.
    - pose proof (moveOptions_nonzero (Piece.type (objects w a))
                                      (Piece.color (objects w a))) as Z.
      rewrite Forall_forall in Z. exact (Z _ Im). }
  assert (G : getPossibleCaptures (objects w) this a = [mkCapture a b]).
  { apply validLabel_encode in Va, Vb.
    destruct Va as (xa & ya & Ba & Pa). destruct Vb as (xb & yb & Bb & Pb).
    apply (getPossibleCaptures_two (objects w) this a b xa ya xb yb); try assumption.
    rewrite Ca, Cb. reflexivity. }
  destruct (single_capture_run d w this a b O La Lb N) as (w3 & E3 & S3 & D3 & K3 & F3).
  exists w3. split; [ | rewrite S3, D3, K3, S0, D0, K0; repeat split].
  unfold solve. rewrite solveRecursive_unfold.
  assert (L : Nat.eqb (List.length this) 1 = false) by (destruct O as [-> | ->]; reflexivity).
  rewrite L.
  assert (Cb3 : Piece.color (objects w3 b) = Black) by (rewrite F3 by assumption; exact Cb).
  destruct O as [Eo | Eo]; rewrite Eo at 2; cbn [forEachPiece].
  - rewrite Ca, G. cbn [Color_eqb List.length Nat.ltb Nat.leb]. rewrite E3.
    rewrite Cb3. reflexivity.
  - rewrite Cb. cbn [Color_eqb]. rewrite Ca, G.
    cbn [Color_eqb List.length Nat.ltb Nat.leb]. rewrite E3. reflexivity.
Qed.

(** ** Sample runs *)

Example rookKnightRook_console :
  option_map console (solve 3 rookKnightRook [0; 1; 2]%nat)
  = Some [LogSolved [(Piece.mk Rook White "a1", Piece.mk Knight Black "a3");
                     (Piece.mk Rook Black "a8", Piece.mk Rook White "a3")]].
Proof. vm_compute. reflexivity. Qed.

Lemma two_piece_search_white_reaches_black_witness :
  allocated rookKnight [0; 1]%nat
  /\ canReach (objects rookKnight) 0%nat 1%nat
  /\ exists w',
       solve 2 rookKnight [0; 1]%nat = Some w'
       /\ solutionsCount w' = 1%nat
       /\ deadEndCount w' = O
       /\ console w' = [LogSolved [(Piece.mk Rook White "a1", Piece.mk Knight Black "a3")]].
Proof.
  assert (A : allocated rookKnight [0; 1]%nat) by (repeat constructor).
  assert (R : canReach (objects rookKnight) 0%nat 1%nat).
  { exists (Move.mk 0 1 Slide), 2. repeat split.
    - right. right. left. reflexivity.
    - right. left. reflexivity. }
  split; [exact A | split; [exact R | ]].
  apply (two_piece_search_white_reaches_black O rookKnight [0; 1]%nat 0%nat 1%nat);
    try reflexivity; try assumption.
  - left. reflexivity.
  - apply validLabelb_spec. reflexivity.
  - apply validLabelb_spec. reflexivity.
Defined.

(** C4 as it is written fails when the piece that reaches the other is the
    Black one: the black rook on a3 reaches the white knight on a1, the
    knight has no capture, and the search from White's turn ends with no
    solution and one dead end. *)
Lemma two_piece_search_counterexample :
  Piece.color (objects knightRook 0%nat) = White
  /\ Piece.color (objects knightRook 1%nat) = Black
  /\ validLabel (Piece.position (objects knightRook 0%nat))
  /\ validLabel (Piece.position (objects knightRook 1%nat))
  /\ canReach (objects knightRook) 1%nat 0%nat
  /\ option_map (fun w' => (solutionsCount w', deadEndCount w', console w'))
                (solve 2 knightRook [0; 1]%nat)
     = Some (O, 1%nat, []).
Proof.
  repeat split; try (apply validLabelb_spec; reflexivity).
  exists (Move.mk 0 (-1) Slide), 2. repeat split.
  - right. left. reflexivity.
  - right. left. reflexivity.
Qed.

Lemma solveRecursive_dead_end_witness :
  (1 < List.length [0; 1]%nat)%nat
  /\ noCapture knightRook [0; 1]%nat White
  /\ forall depth,
       solveRecursive (S depth) knightRook [0; 1]%nat [] White
       = Some (incrDeadEnd knightRook)
       /\ exists w',
            solveRecursive (S depth) knightRook [0; 1]%nat [] White = Some w'
            /\ deadEndCount w' = 1%nat
            /\ solutionsCount w' = O
            /\ console w' = []
            /\ nextLoc w' = 2%nat
            /\ forall l, objects w' l = objects knightRook l.
Proof.
  assert (L : (1 < List.length [0; 1]%nat)%nat) by (simpl; lia).
  assert (N : noCapture knightRook [0; 1]%nat White).
  { intros piece [<- | [<- | []]] C; [reflexivity | discriminate C]. }
  split; [exact L | split; [exact N | ]].
  exact (proj1 (solveRecursive_dead_end knightRook [0; 1]%nat [] White L) N).
Defined.

Lemma solve_solutions_alternate_witness :
  allocated rookKnightRook [0; 1; 2]%nat
  /\ exists w',
       solve 3 rookKnightRook [0; 1; 2]%nat = Some w'
       /\ exists new,
            console w' = console rookKnightRook ++ new
            /\ forall lines,
                 In (LogSolved lines) new ->
                 forall i line,
                   nth_error lines i = Some line ->
                   Piece.color (fst line) = if Nat.even i then White else Black.
Proof.
  assert (A : allocated rookKnightRook [0; 1; 2]%nat) by (repeat constructor).
  split; [exact A | ].
  destruct (solveRecursive_enough_depth 3 rookKnightRook [0; 1; 2]%nat [] White)
    as [w' E]; [lia | simpl; lia | ].
  exists w'. split; [exact E | ].
  exact (solve_solutions_alternate 3 rookKnightRook w' [0; 1; 2]%nat A E).
Defined.

(** * Further properties of the code *)

(** ** The codec on valid squares *)

(** X1: from a valid label the decoded pair is on the board, and the
    result of [calculatePosition] is decided by the offset square alone:
    on the board, it is that square's label, itself a valid label that
    decodes to the offset pair; off the board, it is null. *)
Theorem calculatePosition_bounds (start : string) (move : Move.t) (multiplier : Z) :
  validLabel start ->
  exists x y,
    decode start = (Some x, Some y)
    /\ onBoard x y
    /\ (onBoard (x + multiplier * Move.directionX move)
                (y + multiplier * Move.directionY move) ->
        calculatePosition start move multiplier
        = Some (encode (x + multiplier * Move.directionX move)
                       (y + multiplier * Move.directionY move))
        /\ validLabel (encode (x + multiplier * Move.directionX move)
                              (y + multiplier * Move.directionY move))
        /\ decode (encode (x + multiplier * Move.directionX move)
                          (y + multiplier * Move.directionY move))
           = (Some (x + multiplier * Move.directionX move),
              Some (y + multiplier * Move.directionY move)))
    /\ (~ onBoard (x + multiplier * Move.directionX move)
                  (y + multiplier * Move.directionY move) ->
        calculatePosition start move multiplier = None).
Proof.
  intros V. apply validLabel_encode in V. destruct V as (x & y & B & ->).
  exists x, y. split; [apply decode_encode; exact B | split; [exact B | ]].
  rewrite calculatePosition_encode by assumption. cbv zeta. split.
  - intros B'. pose proof (proj2 (inRange_onBoard _ _) B') as R. rewrite R.
    split; [reflexivity | split].
    + apply validLabel_encode. eexists; eexists. split; [exact B' | reflexivity].
    + apply decode_encode. exact B'.
  - intros N. destruct (inRange _ _) eqn:R; [ | reflexivity].
    exfalso. apply N. apply inRange_onBoard. exact R.
Qed.

Lemma calculatePosition_bounds_witness :
  validLabel "g7"
  /\ exists x y,
       decode "g7" = (Some x, Some y)
       /\ onBoard x y
       /\ (onBoard (x + 1 * 2) (y + 1 * 1) ->
           calculatePosition "g7" (Move.mk 2 1 Jump) 1
           = Some (encode (x + 1 * 2) (y + 1 * 1))
           /\ validLabel (encode (x + 1 * 2) (y + 1 * 1))
           /\ decode (encode (x + 1 * 2) (y + 1 * 1))
              = (Some (x + 1 * 2), Some (y + 1 * 1)))
       /\ (~ onBoard (x + 1 * 2) (y + 1 * 1) ->
           calculatePosition "g7" (Move.mk 2 1 Jump) 1 = None).
Proof.
  assert (V : validLabel "g7") by (apply validLabelb_spec; reflexivity).
  split; [exact V | ].
  exact (calculatePosition_bounds "g7" (Move.mk 2 1 Jump) 1 V).
Defined.

(** X2: steps add up.  From a valid label, going [i] steps to a square of
    the board and then [j] steps from there is going [i + j] steps from
    the start, whether that ends on the board or not; in particular going
    back by as many steps returns the start label. *)
Theorem calculatePosition_steps_add (start mid : string) (move : Move.t) (i j : Z) :
  validLabel start ->
  calculatePosition start move i = Some mid ->
  calculatePosition mid move j = calculatePosition start move (i + j)
  /\ calculatePosition mid move (- i) = Some start.
Proof.
  intros V. apply validLabel_encode in V. destruct V as (x & y & B & ->).
  rewrite calculatePosition_encode by assumption. cbv zeta.
  destruct (inRange _ _) eqn:R; [ | discriminate].
  intros E.
  apply (f_equal (fun o => match o with Some s => s | None => EmptyString end)) in E.
  cbv beta iota in E. subst mid.
  apply inRange_onBoard in R.
  rewrite !calculatePosition_encode by assumption. cbv zeta.
  replace (x + i * Move.directionX move + j * Move.directionX move)
    with (x + (i + j) * Move.directionX move) by lia.
  replace (y + i * Move.directionY move + j * Move.directionY move)
    with (y + (i + j) * Move.directionY move) by lia.
  split; [reflexivity | ].
  replace (x + i * Move.directionX move + - i * Move.directionX move) with x by lia.
  replace (y + i * Move.directionY move + - i * Move.directionY move) with y by lia.
  rewrite (proj2 (inRange_onBoard x y) B). reflexivity.
Qed.

Lemma calculatePosition_steps_add_witness :
  validLabel "b2"
  /\ calculatePosition "b2" (Move.mk 1 1 Slide) 2 = Some "d4"
  /\ calculatePosition "d4" (Move.mk 1 1 Slide) 3
     = calculatePosition "b2" (Move.mk 1 1 Slide) (2 + 3)
  /\ calculatePosition "d4" (Move.mk 1 1 Slide) (- 2) = Some "b2".
Proof.
  assert (V : validLabel "b2") by (apply validLabelb_spec; reflexivity).
  split; [exact V | split; [reflexivity | ]].
  exact (calculatePosition_steps_add "b2" "d4" (Move.mk 1 1 Slide) 2 3 V eq_refl).
Defined.

(** X3: seven steps reach every square of a ray.  From a valid label and
    along a direction that is not (0, 0), a step count of eight or more is
    off the board, so the bound of the slide loop leaves no square out; and
    a step count of one or more never lands on the start square. *)
Theorem calculatePosition_beyond_seven (start : string) (move : Move.t) (i : Z) :
  validLabel start ->
  nonzero move ->
  (8 <= i -> calculatePosition start move i = None)
  /\ (1 <= i -> calculatePosition start move i <> Some start).
Proof.
  intros V N. split.
  - intros Hi. apply validLabel_encode in V. destruct V as (x & y & B & ->).
    rewrite calculatePosition_encode by assumption. cbv zeta.
    destruct (inRange _ _) eqn:R; [exfalso | reflexivity].
    apply inRange_onBoard in R. unfold onBoard, nonzero in *. nia.
  - intros Hi. apply calculatePosition_moves; assumption.
Qed.

Lemma calculatePosition_beyond_seven_witness :
  validLabel "a1"
  /\ nonzero (Move.mk 1 1 Slide)
  /\ (8 <= 8 -> calculatePosition "a1" (Move.mk 1 1 Slide) 8 = None)
  /\ (1 <= 8 -> calculatePosition "a1" (Move.mk 1 1 Slide) 8 <> Some "a1").
Proof.
  assert (V : validLabel "a1") by (apply validLabelb_spec; reflexivity).
  assert (N : nonzero (Move.mk 1 1 Slide)) by (left; discriminate).
  split; [exact V | split; [exact N | ]].
  exact (calculatePosition_beyond_seven "a1" (Move.mk 1 1 Slide) 8 V N).
Defined.

(** ** Lookup *)

Lemma NoDup_map_eq {A B : Type} (f : A -> B) (l : list A) (x y : A) :
  NoDup (map f l) -> In x l -> In y l -> f x = f y -> x = y.
Proof.
  induction l as [ | z l IH]; intros ND Ix Iy E; [destruct Ix | ].
  cbn [map] in ND. apply NoDup_cons_iff in ND. destruct ND as [Nz ND].
  destruct Ix as [<- | Ix], Iy as [<- | Iy].
  - reflexivity.
  - exfalso. apply Nz. rewrite E. apply in_map. exact Iy.
  - exfalso. apply Nz. rewrite <- E. apply in_map. exact Ix.
  - apply IH; assumption.
Qed.

Lemma findPiece_own (h : Heap) (pieces : Board) (l : loc) :
  NoDup (map (fun l' => Piece.position (h l')) pieces) ->
  In l pieces ->
  findPiece h pieces (Piece.position (h l)) = Some l.
Proof.
  intros ND Il. apply findPiece_Some_lastAt.
  destruct (in_split _ _ Il) as (before & after & ->).
  destruct (NoDup_map_split _ _ _ _ ND) as (_ & Fa & _).
  exists before, after. repeat split. exact Fa.
Qed.

(** X5: [findPiece] returns null exactly when no piece of the board
    stands at the position; a piece it returns is a piece of the board
    standing there; and on a board with pairwise distinct positions,
    looking up the position of any piece of the board returns that piece. *)
Theorem findPiece_lookup (h : Heap) (pieces : Board) (position : string) :
  (findPiece h pieces position = None <->
   Forall (fun l => Piece.position (h l) <> position) pieces)
  /\ (forall l, findPiece h pieces position = Some l ->
                In l pieces /\ Piece.position (h l) = position)
  /\ (NoDup (map (fun l => Piece.position (h l)) pieces) ->
      forall l, In l pieces -> findPiece h pieces (Piece.position (h l)) = Some l).
Proof.
  split; [apply findPiece_None | split].
  - intros l F. apply findPiece_Some_lastAt in F.
    destruct F as (before & after & -> & P & _).
    split; [apply in_or_app; right; left; reflexivity | exact P].
  - intros ND l Il. apply findPiece_own; assumption.
Qed.

(** ** The codec on any string *)

(** X4: [calculatePosition] never rejects a malformed start label.  On
    the empty string it returns a string, the character 0 followed by
    NaN, for every move and step count.  A string that it returns is never
    empty, and it is a valid label exactly when the start label decodes to
    two numbers: garbage in never gives a valid square out. *)
Theorem calculatePosition_malformed (start : string) (move : Move.t) (multiplier : Z) :
  calculatePosition EmptyString move multiplier = Some (String Ascii.zero "NaN")
  /\ forall p,
       calculatePosition start move multiplier = Some p ->
       p <> EmptyString
       /\ (validLabel p <-> exists x y, decode start = (Some x, Some y)).
Proof.
  split; [reflexivity | ].
  intros p E. split.
  { intros ->. exact (calculatePosition_not_empty _ _ _ E). }
  unfold calculatePosition, decode in *.
  destruct (charCodeAt0 start) as [c | ]; destruct (parseIntCharAt1 start) as [y | ];
    cbn [option_map jsAdd jsLt jsGt] in E |- *.
  - split; [intros _; eexists; eexists; reflexivity | intros _].
    destruct (_ || _) eqn:T; [discriminate | ]. injection E as <-.
    apply validLabel_encode.
    exists (c - 96 + multiplier * Move.directionX move),
           (y + multiplier * Move.directionY move).
    split; [unfold onBoard; lia | reflexivity].
  - destruct (_ || _); [discriminate | ]. injection E as <-.
    split; [ | intros (x & y & Q); discriminate Q].
    intros V. apply validLabelb_spec in V. discriminate V.
  - cbn [orb] in E. destruct (_ || _); [discriminate | ]. injection E as <-.
    split; [ | intros (x & y' & Q); discriminate Q].
    intros V. apply validLabelb_spec in V. exfalso. revert V.
    cbn [fromCharCode jsAdd option_map String.append].
    destruct (NilZero.string_of_int _) as [ | r [ | ? ?]]; cbn; discriminate.
  - injection E as <-.
    split; [ | intros (x & y & Q); discriminate Q].
    intros V. apply validLabelb_spec in V. discriminate V.
Qed.

(** ** Capture generation *)

Lemma Color_eqb_false (a b : Color) : Color_eqb a b = false <-> a <> b.
Proof. destruct (Color_eqb_spec a b); split; congruence. Qed.

Lemma slideLoop_inv (h : Heap) (board : Board) (this : loc) (move : Move.t)
    (todo : nat) (i0 : Z) (c : Capture) :
  In c (slideLoop h board this move i0 todo) ->
  exists i t,
    i0 <= i < i0 + Z.of_nat todo
    /\ occupiedAt h board this move i t
    /\ (forall j t', i0 <= j < i -> ~ occupiedAt h board this move j t')
    /\ Piece.color (h t) <> Piece.color (h this)
    /\ c = mkCapture this t.
Proof.
  revert i0. induction todo as [ | todo IH]; intros i0 I; [destruct I | ].
  cbn [slideLoop] in I.
  assert (Next : In c (slideLoop h board this move (i0 + 1) todo) ->
                 (forall t', ~ occupiedAt h board this move i0 t') ->
                 exists i t,
                   i0 <= i < i0 + Z.of_nat (S todo)
                   /\ occupiedAt h board this move i t
                   /\ (forall j t', i0 <= j < i -> ~ occupiedAt h board this move j t')
                   /\ Piece.color (h t) <> Piece.color (h this)
                   /\ c = mkCapture this t).
  { intros I' E. destruct (IH _ I') as (i & t & Hi & O & F & C & ->).
    exists i, t. repeat split; try assumption; try lia.
    intros j t' Hj. destruct (Z.eq_dec j i0) as [-> | D]; [apply E | apply F; lia]. }
  destruct (calculatePosition _ move i0) as [p | ] eqn:P.
  - destruct (findPiece h board p) as [t | ] eqn:F.
    + destruct (Color_eqb_spec (Piece.color (h t)) (Piece.color (h this))) as [E | N];
        cbn [negb] in I; [destruct I | ].
      destruct I as [<- | []]. exists i0, t.
      split; [lia | split; [exists p; split; assumption | ]].
      split; [intros j t' Hj; lia | split; [assumption | reflexivity]].
    + apply Next; [exact I | ]. intros t' (p' & P' & F'). congruence.
  - apply Next; [exact I | ]. intros t' (p' & P' & _). congruence.
Qed.

(** Every capture that a direction pushes is the capture of the piece at
    the first occupied step along it. *)
Lemma capturesForMove_inv (h : Heap) (board : Board) (this : loc) (move : Move.t)
    (c : Capture) :
  In c (capturesForMove h board this move) ->
  exists i t,
    In i (stepsOf move)
    /\ occupiedAt h board this move i t
    /\ (forall j t', 1 <= j < i -> ~ occupiedAt h board this move j t')
    /\ Piece.color (h t) <> Piece.color (h this)
    /\ c = mkCapture this t.
Proof.
  intros I. unfold capturesForMove, stepsOf in *. destruct (Move.type move).
  - unfold jumpCaptures in I.
    destruct (calculatePosition _ move 1) as [p | ] eqn:P; [ | destruct I].
    destruct (findPiece h board p) as [t | ] eqn:F; [ | destruct I].
    destruct (Color_eqb_spec (Piece.color (h t)) (Piece.color (h this))) as [E | N];
      cbn [negb] in I; [destruct I | ].
    destruct I as [<- | []]. exists 1, t.
    split; [left; reflexivity | ].
    split; [exists p; split; assumption | ].
    split; [intros j t' Hj; lia | split; [assumption | reflexivity]].
  - unfold slideCaptures in I. apply slideLoop_inv in I.
    destruct I as (i & t & Hi & O & F & C & ->). exists i, t.
    split.
    + cbn in Hi. cbn [In].
      assert (i = 1 \/ i = 2 \/ i = 3 \/ i = 4 \/ i = 5 \/ i = 6 \/ i = 7) by lia.
      intuition auto.
    + split; [assumption | split; [assumption | split; [assumption | reflexivity]]].
Qed.

(** Every capture of the list comes from a direction of the table. *)
Lemma getPossibleCaptures_inv (h : Heap) (board : Board) (this : loc) (c : Capture) :
  In c (getPossibleCaptures h board this) ->
  exists move i t,
    In move (moveOptions (Piece.type (h this)) (Piece.color (h this)))
    /\ In i (stepsOf move)
    /\ occupiedAt h board this move i t
    /\ (forall j t', 1 <= j < i -> ~ occupiedAt h board this move j t')
    /\ Piece.color (h t) <> Piece.color (h this)
    /\ c = mkCapture this t.
Proof.
  unfold getPossibleCaptures. intros I. apply in_flat_map in I.
  destruct I as (move & Im & I). exists move.
  destruct (capturesForMove_inv _ _ _ _ _ I) as (i & t & R).
  exists i, t. split; [exact Im | exact R].
Qed.

(** Conversely, the first occupied step along a direction of the table
    gives a capture of the list when the piece found is of the other
    color. *)
Lemma getPossibleCaptures_intro (h : Heap) (board : Board) (this : loc)
    (move : Move.t) (i : Z) (t : loc) :
  In move (moveOptions (Piece.type (h this)) (Piece.color (h this))) ->
  In i (stepsOf move) ->
  occupiedAt h board this move i t ->
  (forall j t', 1 <= j < i -> ~ occupiedAt h board this move j t') ->
  Piece.color (h t) <> Piece.color (h this) ->
  In (mkCapture this t) (getPossibleCaptures h board this).
Proof.
  intros Im Ii O F C.
  unfold getPossibleCaptures. apply in_flat_map. exists move. split; [exact Im | ].
  apply Color_eqb_false in C.
  unfold capturesForMove, stepsOf in *. destruct (Move.type move).
  - destruct Ii as [<- | []]. destruct O as (p & P & Q).
    unfold jumpCaptures. rewrite P, Q, C. left. reflexivity.
  - unfold slideCaptures.
    rewrite (slideLoop_first h board this move 7 1 i t); [ | | exact O | exact F].
    + unfold captureIfOpposing. rewrite C. left. reflexivity.
    + cbn in Ii. cbn. intuition lia.
Qed.

(** X6: what [getPossibleCaptures] returns, exactly.  A capture is in the
    list if and only if its attacker is the piece itself and its target is
    a piece of the other color that [findPiece] finds at some step of some
    direction of the piece's move table (step 1 for a jump, a step of 1..7
    for a slide), with no occupied square at an earlier step of that
    direction. *)
Theorem getPossibleCaptures_characterized (h : Heap) (board : Board) (this : loc)
    (c : Capture) :
  In c (getPossibleCaptures h board this) <->
  exists move i t,
    In move (moveOptions (Piece.type (h this)) (Piece.color (h this)))
    /\ In i (stepsOf move)
    /\ occupiedAt h board this move i t
    /\ (forall j t', 1 <= j < i -> ~ occupiedAt h board this move j t')
    /\ Piece.color (h t) <> Piece.color (h this)
    /\ c = mkCapture this t.
Proof.
  split; [apply getPossibleCaptures_inv | ].
  intros (move & i & t & Im & Ii & O & F & C & ->).
  apply (getPossibleCaptures_intro h board this move i t); assumption.
Qed.

(** X7: [getPossibleCaptures] never returns a capture of a piece of the
    same color, of a piece that is not on the board, or of the piece
    itself; and from a valid square, the target of a capture stands on
    another valid square of the board. *)
Theorem getPossibleCaptures_sound (h : Heap) (board : Board) (this : loc) (c : Capture) :
  In c (getPossibleCaptures h board this) ->
  attacker c = this
  /\ In (target c) board
  /\ Piece.color (h (target c)) <> Piece.color (h this)
  /\ target c <> this
  /\ (validLabel (Piece.position (h this)) ->
      validLabel (Piece.position (h (target c)))
      /\ Piece.position (h (target c)) <> Piece.position (h this)).
Proof.
  intros I. apply getPossibleCaptures_inv in I.
  destruct I as (move & i & t & Im & Ii & (p & P & Q) & _ & C & ->). cbn [attacker target].
  apply findPiece_Some_lastAt in Q. destruct Q as (before & after & -> & Pt & _).
  split; [reflexivity | split; [apply in_or_app; right; left; reflexivity | ]].
  split; [exact C | split; [intros E; apply C; rewrite E; reflexivity | ]].
  intros V. rewrite Pt. split.
  - pose proof V as V'. apply validLabel_encode in V'. destruct V' as (x & y & B & E).
    rewrite E, calculatePosition_encode in P by assumption. cbv zeta in P.
    destruct (inRange _ _) eqn:R; [ | discriminate]. apply inRange_onBoard in R.
    apply (f_equal (fun o => match o with Some s => s | None => EmptyString end)) in P.
    cbv beta iota in P. subst p.
    apply validLabel_encode. eexists; eexists. split; [exact R | reflexivity].
  - intros E. rewrite E in P. revert P. apply calculatePosition_moves; [exact V | | ].
    + apply stepsOf_positive in Ii. lia.
    + pose proof (moveOptions_nonzero (Piece.type (h this)) (Piece.color (h this))) as Z.
      rewrite Forall_forall in Z. exact (Z _ Im).
Qed.

Lemma getPossibleCaptures_sound_witness :
  In (mkCapture 0 1) (getPossibleCaptures (rookFile false) [0; 1; 2]%nat 0%nat)
  /\ attacker (mkCapture 0 1) = 0%nat
  /\ In (target (mkCapture 0 1)) [0; 1; 2]%nat
  /\ Piece.color (rookFile false (target (mkCapture 0 1)))
     <> Piece.color (rookFile false 0%nat)
  /\ target (mkCapture 0 1) <> 0%nat
  /\ (validLabel (Piece.position (rookFile false 0%nat)) ->
      validLabel (Piece.position (rookFile false (target (mkCapture 0 1))))
      /\ Piece.position (rookFile false (target (mkCapture 0 1)))
         <> Piece.position (rookFile false 0%nat)).
Proof.
  assert (I : In (mkCapture 0 1) (getPossibleCaptures (rookFile false) [0; 1; 2]%nat 0%nat))
    by (left; reflexivity).
  split; [exact I | ].
  exact (getPossibleCaptures_sound (rookFile false) [0; 1; 2]%nat 0%nat (mkCapture 0 1) I).
Defined.

(** X8: a piece has at most one capture per direction of its move table,
    so at most eight in all. *)
Theorem getPossibleCaptures_at_most_eight (h : Heap) (board : Board) (this : loc) :
  (List.length (getPossibleCaptures h board this)
   <= List.length (moveOptions (Piece.type (h this)) (Piece.color (h this))))%nat
  /\ (List.length (getPossibleCaptures h board this) <= 8)%nat.
Proof.
  assert (P : forall moves,
             (List.length (flat_map (capturesForMove h board this) moves)
              <= List.length moves)%nat).
  { induction moves as [ | m ms IH]; [cbn; lia | ].
    cbn [flat_map]. rewrite length_app. cbn [List.length].
    assert ((List.length (capturesForMove h board this m) <= 1)%nat); [ | lia].
    unfold capturesForMove, jumpCaptures, slideCaptures. destruct (Move.type m).
    - destruct (calculatePosition _ m 1) as [p | ]; [ | cbn; lia].
      destruct (findPiece h board p); [ | cbn; lia].
      destruct (negb _); cbn; lia.
    - apply slideLoop_short. }
  unfold getPossibleCaptures. split; [apply P | ].
  etransitivity; [apply P | ].
  destruct (Piece.type (h this)), (Piece.color (h this)); cbn; lia.
Qed.

(** ** Cloning *)

Lemma Board_clone_copies (pieces : Board) :
  forall w w1 newBoard,
    allocated w pieces ->
    Board_clone w pieces = (w1, newBoard) ->
    map (objects w1) newBoard = map (objects w) pieces.
Proof.
  induction pieces as [ | piece rest IH]; intros w w1 newBoard A E; cbn [Board_clone] in E.
  - injection E as <- <-. reflexivity.
  - apply Forall_cons_iff in A. destruct A as [Hp A].
    destruct (Piece_clone_spec w piece) as (P1 & P2 & P3 & P4 & _).
    destruct (Piece_clone w piece) as [wa piece']. cbn [fst snd] in *.
    destruct (Board_clone wa rest) as [wb rest'] eqn:R.
    injection E as <- <-.
    destruct (Board_clone_spec _ _ _ _ R) as (_ & _ & I3 & _).
    cbn [map]. f_equal.
    + rewrite P1, I3 by lia. exact P4.
    + rewrite (IH wa wb rest').
      * apply map_ext_in. intros l Il. apply P3.
        unfold allocated in A. rewrite Forall_forall in A. specialize (A l Il). lia.
      * unfold allocated in *. rewrite Forall_forall in *. intros l Il.
        specialize (A l Il). lia.
      * exact R.
Qed.

Lemma removeTarget_incl (h : Heap) (capture : Capture) (pieces : Board) (l : loc) :
  In l (removeTarget h capture pieces) -> In l pieces.
Proof.
  assert (F : Forall (fun x => In x pieces) (removeTarget h capture pieces)).
  { apply removeTarget_Forall. apply Forall_forall. auto. }
  rewrite Forall_forall in F. apply F.
Qed.

(** X11: a cloned board shares nothing with its source.  Its pieces are
    new objects, pairwise different and different from every existing
    object, with the fields of the source pieces in the same order; no
    existing object is changed by cloning, nor by a capture applied to the
    clone afterwards. *)
Theorem Board_clone_independent (w w1 : World) (pieces newBoard : Board) :
  allocated w pieces ->
  Board_clone w pieces = (w1, newBoard) ->
  List.length newBoard = List.length pieces
  /\ NoDup newBoard
  /\ (forall l, In l newBoard ->
                ~ In l pieces /\ (nextLoc w <= l < nextLoc w1)%nat)
  /\ map (objects w1) newBoard = map (objects w) pieces
  /\ (forall l, (l < nextLoc w)%nat -> objects w1 l = objects w l)
  /\ (forall capture l,
        (l < nextLoc w)%nat ->
        fst (fst (applyCapture (objects w1) newBoard capture)) l = objects w l).
Proof.
  intros A E. destruct (Board_clone_spec _ _ _ _ E) as (B1 & B2 & B3 & _).
  assert (Fresh : forall l, In l newBoard -> (nextLoc w <= l < nextLoc w1)%nat).
  { intros l Il. rewrite B1 in Il. apply in_seq in Il. lia. }
  split; [rewrite B1; apply length_seq | ].
  split; [rewrite B1; apply seq_NoDup | ].
  split; [ | split; [exact (Board_clone_copies _ _ _ _ A E) | split; [exact B3 | ]]].
  - intros l Il. split; [ | apply Fresh; exact Il].
    intros Ip. unfold allocated in A. rewrite Forall_forall in A.
    specialize (A l Ip). specialize (Fresh l Il). lia.
  - intros capture l Hl. unfold applyCapture. cbn [fst].
    rewrite relocateAttacker_outside; [apply B3; exact Hl | ].
    intros I. apply removeTarget_incl in I. specialize (Fresh l I). lia.
Qed.

Lemma Board_clone_independent_witness :
  allocated rookKnightRook [0; 1; 2]%nat
  /\ Board_clone rookKnightRook [0; 1; 2]%nat
     = (fst (Board_clone rookKnightRook [0; 1; 2]%nat), [3; 4; 5]%nat)
  /\ map (objects (fst (Board_clone rookKnightRook [0; 1; 2]%nat))) [3; 4; 5]%nat
     = map (objects rookKnightRook) [0; 1; 2]%nat
  /\ forall capture l,
       (l < nextLoc rookKnightRook)%nat ->
       fst (fst (applyCapture (objects (fst (Board_clone rookKnightRook [0; 1; 2]%nat)))
                              [3; 4; 5]%nat capture)) l
       = objects rookKnightRook l.
Proof.
  assert (A : allocated rookKnightRook [0; 1; 2]%nat) by (repeat constructor).
  assert (E : Board_clone rookKnightRook [0; 1; 2]%nat
              = (fst (Board_clone rookKnightRook [0; 1; 2]%nat), [3; 4; 5]%nat))
    by reflexivity.
  destruct (Board_clone_independent rookKnightRook _ [0; 1; 2]%nat [3; 4; 5]%nat A E)
    as (_ & _ & _ & M & _ & F).
  split; [exact A | split; [exact E | split; [exact M | exact F]]].
Defined.

(** ** applyCapture on any board *)

Section ApplyCaptureFrame.
Variable capture : Capture.

Lemma relocateAttacker_target_label (h : Heap) (pieces : Board) :
  Piece.position (relocateAttacker h capture pieces (target capture))
  = Piece.position (h (target capture)).
Proof.
  revert h. induction pieces as [ | p ps IH]; intros h; [reflexivity | ].
  cbn [relocateAttacker]. rewrite IH.
  destruct (String.eqb _ _); [ | reflexivity].
  unfold setPosition. destruct (Nat.eqb _ _); reflexivity.
Qed.

Lemma relocateAttacker_label (h : Heap) (pieces : Board) (l : loc) :
  Piece.position (relocateAttacker h capture pieces l) = Piece.position (h l)
  \/ Piece.position (relocateAttacker h capture pieces l)
     = Piece.position (h (target capture)).
Proof.
  revert h. induction pieces as [ | p ps IH]; intros h; [left; reflexivity | ].
  cbn [relocateAttacker].
  destruct (String.eqb _ _); [ | apply IH].
  set (h1 := setPosition h p (Piece.position (h (target capture)))).
  assert (T : Piece.position (h1 (target capture)) = Piece.position (h (target capture))).
  { unfold h1, setPosition. destruct (Nat.eqb _ _); reflexivity. }
  destruct (IH h1) as [E | E]; rewrite E.
  - unfold h1, setPosition. destruct (Nat.eqb l p); [right | left]; reflexivity.
  - right. exact T.
Qed.
End ApplyCaptureFrame.

(** X12: whatever the board and the capture, [applyCapture] changes no
    type and no color, leaves every object that is not a piece of the
    resulting board as it was, and leaves each piece either on its square
    or on the target's square; the target's own position never changes. *)
Theorem applyCapture_frame (h : Heap) (pieces : Board) (capture : Capture) :
  (forall l,
      Piece.type (fst (fst (applyCapture h pieces capture)) l) = Piece.type (h l)
      /\ Piece.color (fst (fst (applyCapture h pieces capture)) l) = Piece.color (h l))
  /\ (forall l,
        ~ In l (snd (fst (applyCapture h pieces capture))) ->
        fst (fst (applyCapture h pieces capture)) l = h l)
  /\ (forall l,
        Piece.position (fst (fst (applyCapture h pieces capture)) l)
        = Piece.position (h l)
        \/ Piece.position (fst (fst (applyCapture h pieces capture)) l)
           = Piece.position (h (target capture)))
  /\ Piece.position (fst (fst (applyCapture h pieces capture)) (target capture))
     = Piece.position (h (target capture)).
Proof.
  unfold applyCapture. cbn [fst snd]. split; [ | split; [ | split]].
  - intros l. split; [apply relocateAttacker_type | apply relocateAttacker_color].
  - intros l N. apply relocateAttacker_outside. exact N.
  - intros l. apply relocateAttacker_label.
  - apply relocateAttacker_target_label.
Qed.

(** X13: [applyCapture] returns true exactly when some piece of the board
    stands at the target's position.  Then the first such piece of the
    array is the one removed and the others keep their order; otherwise
    the array is unchanged. *)
Theorem applyCapture_success (h : Heap) (pieces : Board) (capture : Capture) :
  (snd (applyCapture h pieces capture) = true <->
   exists l, In l pieces
             /\ Piece.position (h l) = Piece.position (h (target capture)))
  /\ (snd (applyCapture h pieces capture) = false ->
      snd (fst (applyCapture h pieces capture)) = pieces)
  /\ (forall before l after,
        pieces = before ++ l :: after ->
        Piece.position (h l) = Piece.position (h (target capture)) ->
        Forall (fun l' => Piece.position (h l')
                          <> Piece.position (h (target capture))) before ->
        snd (fst (applyCapture h pieces capture)) = before ++ after).
Proof.
  assert (Third : forall before l after,
             pieces = before ++ l :: after ->
             Piece.position (h l) = Piece.position (h (target capture)) ->
             Forall (fun l' => Piece.position (h l')
                               <> Piece.position (h (target capture))) before ->
             snd (fst (applyCapture h pieces capture)) = before ++ after).
  { intros before l after -> P F. unfold applyCapture. cbn [fst snd].
    apply removeTarget_first; assumption. }
  assert (Dec : Forall (fun l => Piece.position (h l)
                                 <> Piece.position (h (target capture))) pieces
                \/ exists before l after,
                     pieces = before ++ l :: after
                     /\ Piece.position (h l) = Piece.position (h (target capture))
                     /\ Forall (fun l' => Piece.position (h l')
                                          <> Piece.position (h (target capture))) before).
  { clear Third. induction pieces as [ | p ps IH]; [left; constructor | ].
    destruct (String.eqb_spec (Piece.position (h p)) (Piece.position (h (target capture))))
      as [E | N].
    - right. exists [], p, ps. repeat split; [exact E | constructor].
    - destruct IH as [F | (before & l & after & -> & P & F)].
      + left. constructor; assumption.
      + right. exists (p :: before), l, after. repeat split; [exact P | ].
        constructor; assumption. }
  split; [ | split; [ | exact Third]].
  - destruct Dec as [F | (before & l & after & E & P & F)].
    + split.
      * unfold applyCapture. cbn [fst snd]. rewrite removeTarget_none by exact F.
        intros C. apply Z.eqb_eq in C. lia.
      * intros (l & Il & P). rewrite Forall_forall in F. exfalso. exact (F l Il P).
    + split.
      * intros _. exists l. split; [rewrite E; apply in_or_app; right; left; reflexivity | exact P].
      * intros _. unfold applyCapture. cbn [fst snd].
        rewrite E, removeTarget_first by assumption.
        rewrite !length_app. cbn [List.length]. apply Z.eqb_eq. lia.
  - destruct Dec as [F | (before & l & after & E & P & F)].
    + intros _. unfold applyCapture. cbn [fst snd]. apply removeTarget_none. exact F.
    + unfold applyCapture. cbn [fst snd]. rewrite E, removeTarget_first by assumption.
      rewrite !length_app. cbn [List.length]. intros C. apply Z.eqb_neq in C. lia.
Qed.

Lemma NoDup_insert {A : Type} (xs ys : list A) (v : A) :
  NoDup (xs ++ ys) -> ~ In v (xs ++ ys) -> NoDup (xs ++ v :: ys).
Proof.
  induction xs as [ | x xs IH]; cbn [app]; intros ND N.
  - constructor; assumption.
  - apply NoDup_cons_iff in ND. destruct ND as [Nx ND].
    constructor.
    + intros I. apply in_app_or in I. destruct I as [I | [I | I]].
      * apply Nx. apply in_or_app. left. exact I.
      * apply N. left. symmetry. exact I.
      * apply Nx. apply in_or_app. right. exact I.
    + apply IH; [exact ND | ]. intros I. apply N. right. exact I.
Qed.

(** After a capture between two pieces of a board with pairwise distinct
    positions, the positions are pairwise distinct again. *)
Lemma applyCapture_distinct_again (h : Heap) (pieces : Board) (capture : Capture)
    (a t : loc) (h' : Heap) (pieces' : Board) (result : bool) :
  NoDup (map (fun l => Piece.position (h l)) pieces) ->
  In a pieces ->
  In t pieces ->
  Piece.position (h a) = Piece.position (h (attacker capture)) ->
  Piece.position (h t) = Piece.position (h (target capture)) ->
  Piece.position (h a) <> Piece.position (h t) ->
  applyCapture h pieces capture = (h', pieces', result) ->
  result = true
  /\ List.length pieces = S (List.length pieces')
  /\ NoDup (map (fun l => Piece.position (h' l)) pieces')
  /\ (forall l, In l pieces' -> In l pieces)
  /\ (forall l, ~ In l pieces -> h' l = h l).
Proof.
  intros ND Ia It Pa Pt Np E.
  destruct (applyCapture_distinct h pieces capture a t ND Ia It Pa Pt Np)
    as (before & after & Ep & R & Nt & Ia' & ND' & Frest).
  rewrite R in E. injection E as <- <- <-.
  split; [reflexivity | split; [rewrite Ep, !length_app; cbn [List.length]; lia | ]].
  split; [ | split].
  - destruct (in_split _ _ Ia') as (c1 & c2 & Ec). rewrite Ec in *.
    destruct (NoDup_map_split _ _ _ _ ND') as (F1 & F2 & ND'').
    assert (Same : forall ls,
               Forall (fun l => Piece.position (h l) <> Piece.position (h a)) ls ->
               map (fun l => Piece.position
                               (setPosition h a (Piece.position (h t)) l)) ls
               = map (fun l => Piece.position (h l)) ls).
    { intros ls F. apply map_ext_in. intros l Il. rewrite Forall_forall in F.
      rewrite setPosition_other; [reflexivity | ]. intros ->. exact (F _ Il eq_refl). }
    rewrite map_app. cbn [map]. rewrite setPosition_same, !Same by assumption.
    rewrite map_app in ND''.
    apply NoDup_insert; [exact ND'' | ].
    intros I. rewrite <- map_app in I.
    apply in_map_iff in I. destruct I as (l & El & Il).
    rewrite Forall_forall in Frest. apply (Frest l); [ | exact El].
    apply in_app_or in Il. apply in_or_app.
    destruct Il as [Il | Il]; [left; exact Il | right; right; exact Il].
  - intros l Il. rewrite Ep. apply in_app_or in Il. apply in_or_app.
    destruct Il as [Il | Il]; [left; exact Il | right; right; exact Il].
  - intros l Nl. apply setPosition_other. intros ->. exact (Nl Ia).
Qed.

(** X14: a successful capture keeps the board's invariant.  On a board
    with pairwise distinct positions, after a capture between two of its
    pieces at distinct positions, the pieces left stand on pairwise
    distinct positions again. *)
Theorem applyCapture_keeps_positions_distinct
    (h : Heap) (pieces : Board) (capture : Capture) (a t : loc)
    (h' : Heap) (pieces' : Board) (result : bool) :
  distinctPositions h pieces ->
  In a pieces ->
  In t pieces ->
  Piece.position (h a) = Piece.position (h (attacker capture)) ->
  Piece.position (h t) = Piece.position (h (target capture)) ->
  Piece.position (h a) <> Piece.position (h t) ->
  applyCapture h pieces capture = (h', pieces', result) ->
  distinctPositions h' pieces'.
Proof.
  intros ND Ia It Pa Pt Np E.
  destruct (applyCapture_distinct_again h pieces capture a t h' pieces' result
              ND Ia It Pa Pt Np E) as (_ & _ & D & _).
  exact D.
Qed.

Lemma applyCapture_keeps_positions_distinct_witness :
  distinctPositions threePieces [0; 1; 2]%nat
  /\ Piece.position (threePieces 1%nat) <> Piece.position (threePieces 2%nat)
  /\ distinctPositions
       (fst (fst (applyCapture threePieces [0; 1; 2]%nat rookTakesPawn)))
       (snd (fst (applyCapture threePieces [0; 1; 2]%nat rookTakesPawn))).
Proof.
  assert (ND : distinctPositions threePieces [0; 1; 2]%nat).
  { unfold distinctPositions. vm_compute.
    repeat constructor; simpl; intuition discriminate. }
  assert (Np : Piece.position (threePieces 1%nat) <> Piece.position (threePieces 2%nat))
    by discriminate.
  split; [exact ND | split; [exact Np | ]].
  apply (applyCapture_keeps_positions_distinct
           threePieces [0; 1; 2]%nat rookTakesPawn 1%nat 2%nat
           _ _ (snd (applyCapture threePieces [0; 1; 2]%nat rookTakesPawn)) ND);
    try reflexivity; try exact Np; simpl; auto.
Defined.

(** ** The search: what every call leaves behind *)

Lemma frame_refl (w : World) : frame w w.
Proof. split; [lia | reflexivity]. Qed.

Lemma frame_trans (w1 w2 w3 : World) : frame w1 w2 -> frame w2 w3 -> frame w1 w3.
Proof.
  intros [N1 F1] [N2 F2]. split; [lia | ].
  intros l Hl. rewrite F2 by lia. apply F1. exact Hl.
Qed.

Lemma countSolved_app (xs ys : list Output) :
  countSolved (xs ++ ys) = (countSolved xs + countSolved ys)%nat.
Proof. unfold countSolved. rewrite filter_app, length_app. reflexivity. Qed.

Lemma searchPost_refl (n : nat) (w : World) : searchPost n w w.
Proof.
  split; [apply frame_refl | ]. exists []. rewrite app_nil_r. cbn.
  repeat split; try lia; try (intros lines []).
Qed.

Lemma searchPost_trans (n : nat) (w1 w2 w3 : World) :
  searchPost n w1 w2 -> searchPost n w2 w3 -> searchPost n w1 w3.
Proof.
  intros (F1 & n1 & C1 & S1 & D1 & L1) (F2 & n2 & C2 & S2 & D2 & L2).
  split; [exact (frame_trans _ _ _ F1 F2) | ].
  exists (n1 ++ n2). rewrite C2, C1, app_assoc, countSolved_app.
  repeat split; try lia.
  intros lines I. apply in_app_or in I. destruct I; auto.
Qed.

(** Cloning and applying a capture change no object that existed, no
    counter and no console entry. *)
Lemma clone_apply_frame (w w1 : World) (this newBoard newBoard2 : Board)
    (capture : Capture) (h2 : Heap) (result : bool) :
  Board_clone w this = (w1, newBoard) ->
  applyCapture (objects w1) newBoard capture = (h2, newBoard2, result) ->
  frame w (setObjects w1 h2)
  /\ console (setObjects w1 h2) = console w
  /\ solutionsCount (setObjects w1 h2) = solutionsCount w
  /\ deadEndCount (setObjects w1 h2) = deadEndCount w.
Proof.
  intros C A. destruct (Board_clone_spec _ _ _ _ C) as (B1 & B2 & B3 & B4 & B5 & B6).
  unfold applyCapture in A. injection A as <- <- _.
  split; [ | cbn; repeat split; assumption].
  split; [cbn; lia | ].
  intros l Hl. cbn. rewrite relocateAttacker_outside; [apply B3; exact Hl | ].
  intros I. apply removeTarget_incl in I. rewrite B1 in I. apply in_seq in I. lia.
Qed.

Section SearchPost.
Variable n : nat.
Variable recurse : World -> Board -> list Capture -> Color -> option World.
Hypothesis recurse_post : recursePost n recurse.
Variable this : Board.
Variable history : list Capture.
Variable turnColor : Color.
Hypothesis pieces_and_captures : (List.length history + List.length this)%nat = n.

Lemma forEachCapture_post (captures : list Capture) :
  forall w w',
    forEachCapture recurse this history turnColor captures w = Some w' ->
    searchPost n w w'.
Proof.
  induction captures as [ | capture rest IH]; intros w w' E; cbn [forEachCapture] in E.
  - injection E as <-. apply searchPost_refl.
  - pose proof (Board_clone_length w this) as L.
    destruct (Board_clone w this) as [w1 newBoard] eqn:C. cbn [snd] in L.
    destruct (applyCapture (objects w1) newBoard capture) as [[h2 newBoard2] result] eqn:A.
    destruct (clone_apply_frame _ _ _ _ _ _ _ _ C A) as (F2 & K2 & S2 & D2).
    assert (X3 : exists w3,
               (if result
                then recurse (setObjects w1 h2) newBoard2 (history ++ [capture])
                             (nextColor turnColor)
                else Some (consoleLog (setObjects w1 h2) LogMoveFailed)) = Some w3
               /\ searchPost n w w3).
    { destruct result.
      - destruct (recurse _ _ _ _) as [w3 | ] eqn:R; [ | discriminate].
        exists w3. split; [reflexivity | ].
        apply applyCapture_true_length in A.
        assert (P : searchPost n (setObjects w1 h2) w3).
        { apply (recurse_post _ _ _ _ _ R). rewrite length_app. cbn [List.length]. lia. }
        destruct P as (F3 & new & K3 & S3 & D3 & L3).
        split; [exact (frame_trans _ _ _ F2 F3) | ].
        exists new. rewrite K3, K2, S3, S2. repeat split; try lia. exact L3.
      - eexists. split; [reflexivity | ].
        split; [exact F2 | ]. exists [LogMoveFailed]. cbn in K2, S2, D2 |- *.
        rewrite K2, S2, D2. repeat split; try lia.
        intros lines [Q | []]. discriminate Q. }
    destruct X3 as (w3 & R3 & X3). cbv zeta in E. rewrite R3 in E.
    exact (searchPost_trans _ _ _ _ X3 (IH _ _ E)).
Qed.

Lemma forEachPiece_post (pieces : Board) :
  forall w movePossible w' movePossible',
    forEachPiece recurse this history turnColor pieces w movePossible
    = Some (w', movePossible') ->
    searchPost n w w'.
Proof.
  induction pieces as [ | piece rest IH]; intros w mp w' mp' E; cbn [forEachPiece] in E.
  - injection E as <- _. apply searchPost_refl.
  - destruct (Color_eqb _ _); [ | exact (IH _ _ _ _ E)].
    destruct (forEachCapture _ _ _ _ _ _) as [w1 | ] eqn:Q; [ | discriminate].
    exact (searchPost_trans _ _ _ _ (forEachCapture_post _ _ _ Q) (IH _ _ _ _ E)).
Qed.
End SearchPost.

Lemma solveRecursive_post (depth : nat) : forall n, recursePost n (solveRecursive depth).
Proof.
  induction depth as [ | depth IH]; intros n w this history turnColor w' E L;
    cbn [solveRecursive] in E; [discriminate | ].
  destruct (Nat.eqb_spec (List.length this) 1) as [L1 | L1].
  - injection E as <-. split; [split; [cbn; lia | reflexivity] | ].
    exists [LogSolved (printHistory (objects w) history)]. cbn.
    repeat split; try lia.
    intros lines [Q | []]. injection Q as <-.
    unfold printHistory. rewrite length_map. lia.
  - destruct (forEachPiece _ _ _ _ _ _ _) as [[w1 mp] | ] eqn:Q; [ | discriminate].
    pose proof (forEachPiece_post n _ (IH n) this history turnColor L _ _ _ _ _ Q) as X.
    injection E as <-. destruct (negb mp); [ | exact X].
    apply (searchPost_trans _ _ _ _ X).
    split; [split; [cbn; lia | reflexivity] | ].
    exists []. cbn. rewrite app_nil_r. repeat split; try lia; try (intros lines []).
Qed.

(** X15: the search works on clones only.  A call of [solveRecursive]
    changes no object that existed when it was called, whatever the board
    and the history: the caller's pieces are as they were when it
    returns. *)
Theorem solveRecursive_leaves_objects (depth : nat) (w w' : World) (this : Board)
    (history : list Capture) (turnColor : Color) :
  solveRecursive depth w this history turnColor = Some w' ->
  (nextLoc w <= nextLoc w')%nat
  /\ forall l, (l < nextLoc w)%nat -> objects w' l = objects w l.
Proof.
  intros E.
  destruct (solveRecursive_post depth _ _ _ _ _ _ E eq_refl) as (F & _). exact F.
Qed.

(** X16: the counters agree with the console.  After [solve], the console
    is the old one followed by new entries, the solutions counter has
    grown by exactly the number of solutions among them, and the dead-end
    counter has not gone down. *)
Theorem solve_counts_solutions (depth : nat) (w w' : World) (this : Board) :
  solve depth w this = Some w' ->
  exists new,
    console w' = console w ++ new
    /\ solutionsCount w' = (solutionsCount w + countSolved new)%nat
    /\ (deadEndCount w <= deadEndCount w')%nat.
Proof.
  intros E. unfold solve in E.
  destruct (solveRecursive_post depth _ _ _ _ _ _ E eq_refl)
    as (_ & new & K & S & D & _).
  exists new. repeat split; assumption.
Qed.

(** X17: every solution that [solve] prints has exactly one line per piece
    of the board but one. *)
Theorem solve_solution_length (depth : nat) (w w' : World) (this : Board) :
  solve depth w this = Some w' ->
  exists new,
    console w' = console w ++ new
    /\ forall lines,
         In (LogSolved lines) new -> S (List.length lines) = List.length this.
Proof.
  intros E. unfold solve in E.
  destruct (solveRecursive_post depth _ _ _ _ _ _ E eq_refl)
    as (_ & new & K & _ & _ & L).
  exists new. split; [exact K | exact L].
Qed.

(** ** The search on a board with distinct positions *)

Lemma map_eq_In {A B C : Type} (f : A -> C) (g : B -> C) (l1 : list A) (l2 : list B)
    (x : B) :
  map f l1 = map g l2 -> In x l2 -> exists y, In y l1 /\ f y = g x.
Proof.
  revert l2. induction l1 as [ | a l1 IH]; intros [ | b l2] E I; try discriminate.
  - destruct I.
  - cbn [map] in E. injection E as E0 E. destruct I as [<- | I].
    + exists a. split; [left; reflexivity | exact E0].
    + destruct (IH _ E I) as (y & Iy & Ey). exists y. split; [right; exact Iy | exact Ey].
Qed.

Lemma getPossibleCaptures_onBoard (w : World) (this : Board) (piece : loc) (c : Capture) :
  In piece this ->
  In c (getPossibleCaptures (objects w) this piece) ->
  captureOnBoard w this c.
Proof.
  intros Ip I. apply getPossibleCaptures_inv in I.
  destruct I as (move & i & t & _ & _ & (p & _ & Q) & _ & C & ->).
  unfold captureOnBoard. cbn [attacker target].
  split; [exact Ip | split; [exact (findPiece_In _ _ _ _ Q) | ]].
  intros E. apply C. symmetry. exact E.
Qed.

Lemma frame_allocated (w w' : World) (ls : list loc) :
  frame w w' -> allocated w ls -> allocated w' ls.
Proof.
  intros [N _] A. unfold allocated in *. rewrite Forall_forall in *.
  intros l Il. specialize (A l Il). lia.
Qed.

Lemma frame_map {A : Type} (f : Piece.t -> A) (w w' : World) (ls : list loc) :
  frame w w' -> allocated w ls ->
  map (fun l => f (objects w' l)) ls = map (fun l => f (objects w l)) ls.
Proof.
  intros [_ F] Al. apply map_ext_in. intros l Il.
  unfold allocated in Al. rewrite Forall_forall in Al. rewrite F by (apply Al; exact Il).
  reflexivity.
Qed.

Lemma frame_distinctPositions (w w' : World) (this : Board) :
  frame w w' -> allocated w this ->
  distinctPositions (objects w) this -> distinctPositions (objects w') this.
Proof.
  intros F A D. unfold distinctPositions in *.
  rewrite (frame_map Piece.position w w' this F A). exact D.
Qed.

Lemma printHistory_frame (w w' : World) (history : list Capture) :
  frame w w' ->
  allocated w (map attacker history) -> allocated w (map target history) ->
  printHistory (objects w') history = printHistory (objects w) history.
Proof.
  intros [_ F] Aa At. unfold printHistory. apply map_ext_in. intros c Ic.
  unfold allocated in *. rewrite Forall_forall in *.
  rewrite !F; [reflexivity | apply At, in_map, Ic | apply Aa, in_map, Ic].
Qed.

Lemma frame_historyLegal (w w' : World) (history : list Capture) :
  frame w w' -> historyLegal w history -> historyLegal w' history.
Proof.
  intros F (Aa & At & L). unfold historyLegal.
  rewrite (printHistory_frame w w' history F Aa At).
  split; [exact (frame_allocated _ _ _ F Aa) | ].
  split; [exact (frame_allocated _ _ _ F At) | exact L].
Qed.

Lemma frame_captureOnBoard (w w' : World) (this : Board) (c : Capture) :
  frame w w' -> allocated w this ->
  captureOnBoard w this c -> captureOnBoard w' this c.
Proof.
  intros [_ F] A (Ia & It & C). unfold allocated in A. rewrite Forall_forall in A.
  split; [exact Ia | split; [exact It | ]].
  rewrite !F by (apply A; assumption). exact C.
Qed.

Lemma legalPost_refl (w : World) : legalPost w w.
Proof. exists []. rewrite app_nil_r. split; [reflexivity | constructor]. Qed.

Lemma legalPost_trans (w1 w2 w3 : World) :
  legalPost w1 w2 -> legalPost w2 w3 -> legalPost w1 w3.
Proof.
  intros (n1 & E1 & G1) (n2 & E2 & G2). exists (n1 ++ n2).
  rewrite E2, E1, app_assoc. split; [reflexivity | ].
  apply Forall_app. split; assumption.
Qed.

(** On a board with distinct positions, a capture between two of its
    pieces of different colors succeeds on the clone, and the clone then
    has distinct positions again. *)
Lemma clone_apply_succeeds (w w1 : World) (this newBoard newBoard2 : Board)
    (capture : Capture) (h2 : Heap) (result : bool) :
  allocated w this ->
  distinctPositions (objects w) this ->
  captureOnBoard w this capture ->
  Board_clone w this = (w1, newBoard) ->
  applyCapture (objects w1) newBoard capture = (h2, newBoard2, result) ->
  result = true
  /\ distinctPositions h2 newBoard2
  /\ Piece.position (objects w (attacker capture))
     <> Piece.position (objects w (target capture)).
Proof.
  intros A D (Ia & It & Cc) C E.
  destruct (Board_clone_spec _ _ _ _ C) as (_ & _ & B3 & _).
  pose proof (Board_clone_copies _ _ _ _ A C) as M.
  assert (La : (attacker capture < nextLoc w)%nat /\ (target capture < nextLoc w)%nat).
  { unfold allocated in A. rewrite Forall_forall in A. split; apply A; assumption. }
  destruct La as [La Lt].
  assert (Np : Piece.position (objects w (attacker capture))
               <> Piece.position (objects w (target capture))).
  { intros Q.
    assert (X : attacker capture = target capture)
      by exact (NoDup_map_eq _ _ _ _ D Ia It Q).
    apply Cc. rewrite X. reflexivity. }
  destruct (map_eq_In _ _ _ _ _ M Ia) as (a' & Ia' & Ea).
  destruct (map_eq_In _ _ _ _ _ M It) as (t' & It' & Et).
  assert (D1 : distinctPositions (objects w1) newBoard).
  { unfold distinctPositions in *.
    rewrite <- (map_map (objects w1) Piece.position), M, map_map. exact D. }
  destruct (applyCapture_distinct_again (objects w1) newBoard capture a' t'
              h2 newBoard2 result D1 Ia' It') as (R & _ & D2 & _).
  - rewrite Ea, B3 by assumption. reflexivity.
  - rewrite Et, B3 by assumption. reflexivity.
  - rewrite Ea, Et. exact Np.
  - exact E.
  - split; [exact R | split; [exact D2 | exact Np]].
Qed.

Section SearchLegal.
Variable n : nat.
Variable recurse : World -> Board -> list Capture -> Color -> option World.
Hypothesis recurse_post : recursePost n recurse.
Hypothesis recurse_legal : recurseLegal recurse.
Variable this : Board.
Variable history : list Capture.
Variable turnColor : Color.
Hypothesis pieces_and_captures : (List.length history + List.length this)%nat = n.

Lemma forEachCapture_legal (captures : list Capture) :
  forall w w',
    forEachCapture recurse this history turnColor captures w = Some w' ->
    allocated w this ->
    distinctPositions (objects w) this ->
    historyLegal w history ->
    Forall (captureOnBoard w this) captures ->
    legalPost w w'.
Proof.
  induction captures as [ | capture rest IH]; intros w w' E A D H F.
  - cbn [forEachCapture] in E. injection E as <-. apply legalPost_refl.
  - apply Forall_cons_iff in F. destruct F as [Fc F].
    assert (Step : exists w3,
               forEachCapture recurse this history turnColor [capture] w = Some w3
               /\ forEachCapture recurse this history turnColor rest w3 = Some w'
               /\ legalPost w w3).
    { cbn [forEachCapture] in E |- *.
      destruct (Board_clone w this) as [w1 newBoard] eqn:C.
      destruct (applyCapture (objects w1) newBoard capture)
        as [[h2 newBoard2] result] eqn:Ap.
      destruct (clone_apply_succeeds _ _ _ _ _ _ _ _ A D Fc C Ap) as (-> & D2 & Np).
      destruct (clone_apply_frame _ _ _ _ _ _ _ _ C Ap) as (F2 & K2 & _).
      destruct (clone_apply_extends _ _ _ _ _ _ _ _ C Ap) as (_ & A2).
      cbv zeta in E |- *.
      destruct (recurse _ _ _ _) as [w3 | ] eqn:R; [ | discriminate].
      exists w3. split; [reflexivity | split; [exact E | ]].
      assert (H2 : historyLegal (setObjects w1 h2) (history ++ [capture])).
      { destruct Fc as (Ia & It & Cc).
        assert (L : (attacker capture < nextLoc w)%nat /\ (target capture < nextLoc w)%nat).
        { unfold allocated in A. rewrite Forall_forall in A. split; apply A; assumption. }
        destruct H as (Aa & At & Lh). apply (frame_historyLegal w _ _ F2).
        unfold historyLegal, printHistory. rewrite !map_app. cbn [map].
        split; [apply Forall_app; split; [exact Aa | repeat constructor; apply L] | ].
        split; [apply Forall_app; split; [exact At | repeat constructor; apply L] | ].
        apply Forall_app. split; [exact Lh | ].
        constructor; [ | constructor]. split; [exact Cc | exact Np]. }
      destruct (recurse_legal _ _ _ _ _ R A2 D2 H2) as (new & K3 & G3).
      exists new. rewrite K3, K2. split; [reflexivity | exact G3]. }
    destruct Step as (w3 & E1 & E2 & P3).
    apply (legalPost_trans _ _ _ P3).
    pose proof (forEachCapture_post n recurse recurse_post this history turnColor
                  pieces_and_captures _ _ _ E1) as (F3 & _).
    apply (IH _ _ E2).
    + exact (frame_allocated _ _ _ F3 A).
    + exact (frame_distinctPositions _ _ _ F3 A D).
    + exact (frame_historyLegal _ _ _ F3 H).
    + rewrite Forall_forall in *. intros c Ic.
      exact (frame_captureOnBoard _ _ _ _ F3 A (F c Ic)).
Qed.

Lemma forEachPiece_legal (pieces : Board) :
  forall w movePossible w' movePossible',
    forEachPiece recurse this history turnColor pieces w movePossible
    = Some (w', movePossible') ->
    incl pieces this ->
    allocated w this ->
    distinctPositions (objects w) this ->
    historyLegal w history ->
    legalPost w w'.
Proof.
  induction pieces as [ | piece rest IH]; intros w mp w' mp' E I A D H;
    cbn [forEachPiece] in E.
  - injection E as <- _. apply legalPost_refl.
  - assert (Ir : incl rest this) by (intros l Il; apply I; right; exact Il).
    destruct (Color_eqb _ _); [ | exact (IH _ _ _ _ E Ir A D H)].
    destruct (forEachCapture _ _ _ _ _ _) as [w1 | ] eqn:Q; [ | discriminate].
    pose proof (forEachCapture_post n recurse recurse_post this history turnColor
                  pieces_and_captures _ _ _ Q) as (F1 & _).
    assert (P1 : legalPost w w1).
    { apply (forEachCapture_legal _ _ _ Q A D H).
      apply Forall_forall. intros c Ic.
      apply (getPossibleCaptures_onBoard w this piece c); [ | exact Ic].
      apply I. left. reflexivity. }
    apply (legalPost_trans _ _ _ P1). apply (IH _ _ _ _ E Ir).
    + exact (frame_allocated _ _ _ F1 A).
    + exact (frame_distinctPositions _ _ _ F1 A D).
    + exact (frame_historyLegal _ _ _ F1 H).
Qed.
End SearchLegal.

Lemma solveRecursive_legal (depth : nat) : recurseLegal (solveRecursive depth).
Proof.
  induction depth as [ | depth IH]; intros w this history turnColor w' E A D H;
    cbn [solveRecursive] in E; [discriminate | ].
  destruct (Nat.eqb (List.length this) 1).
  - injection E as <-.
    exists [LogSolved (printHistory (objects w) history)]. split; [reflexivity | ].
    constructor; [ | constructor]. destruct H as (_ & _ & L). exact L.
  - destruct (forEachPiece _ _ _ _ _ _ _) as [[w1 mp] | ] eqn:Q; [ | discriminate].
    pose proof (forEachPiece_legal _ _ (solveRecursive_post depth _) IH
                  this history turnColor eq_refl this _ _ _ _ Q
                  (incl_refl this) A D H) as P.
    injection E as <-. destruct (negb mp); exact P.
Qed.

(** X19: on a board whose references point to existing objects and whose
    pieces stand on pairwise distinct positions, every line of every
    solution that the search prints shows a capture between pieces of
    different colors standing on different squares. *)
Theorem solve_prints_legal_captures (depth : nat) (w w' : World) (this : Board) :
  allocated w this ->
  distinctPositions (objects w) this ->
  solve depth w this = Some w' ->
  exists new,
    console w' = console w ++ new
    /\ forall lines a t,
         In (LogSolved lines) new ->
         In (a, t) lines ->
         Piece.color a <> Piece.color t /\ Piece.position a <> Piece.position t.
Proof.
  intros A D E. unfold solve in E.
  destruct (solveRecursive_legal depth _ _ _ _ _ E A D) as (new & K & G).
  - repeat split; constructor.
  - exists new. split; [exact K | ].
    intros lines a t I Il. rewrite Forall_forall in G. specialize (G _ I). cbn in G.
    rewrite Forall_forall in G. exact (G _ Il).
Qed.

Lemma rookKnightRook_distinct : distinctPositions (objects rookKnightRook) [0; 1; 2]%nat.
Proof.
  unfold distinctPositions. vm_compute.
  repeat (apply NoDup_cons; [simpl; intuition discriminate | ]). apply NoDup_nil.
Qed.

Lemma solveRecursive_leaves_objects_witness :
  exists w',
    solveRecursive 3 rookKnightRook [0; 1; 2]%nat [] White = Some w'
    /\ (nextLoc rookKnightRook <= nextLoc w')%nat
    /\ forall l, (l < nextLoc rookKnightRook)%nat -> objects w' l = objects rookKnightRook l.
Proof.
  destruct (solveRecursive_enough_depth 3 rookKnightRook [0; 1; 2]%nat [] White)
    as [w' E]; [lia | simpl; lia | ].
  exists w'. split; [exact E | ].
  exact (solveRecursive_leaves_objects 3 rookKnightRook w' [0; 1; 2]%nat [] White E).
Defined.

Lemma solve_counts_solutions_witness :
  exists w',
    solve 3 rookKnightRook [0; 1; 2]%nat = Some w'
    /\ exists new,
         console w' = console rookKnightRook ++ new
         /\ solutionsCount w' = (solutionsCount rookKnightRook + countSolved new)%nat
         /\ (deadEndCount rookKnightRook <= deadEndCount w')%nat.
Proof.
  destruct (solveRecursive_enough_depth 3 rookKnightRook [0; 1; 2]%nat [] White)
    as [w' E]; [lia | simpl; lia | ].
  exists w'. split; [exact E | ].
  exact (solve_counts_solutions 3 rookKnightRook w' [0; 1; 2]%nat E).
Defined.

Lemma solve_solution_length_witness :
  exists w',
    solve 3 rookKnightRook [0; 1; 2]%nat = Some w'
    /\ exists new,
         console w' = console rookKnightRook ++ new
         /\ forall lines,
              In (LogSolved lines) new ->
              S (List.length lines) = List.length [0; 1; 2]%nat.
Proof.
  destruct (solveRecursive_enough_depth 3 rookKnightRook [0; 1; 2]%nat [] White)
    as [w' E]; [lia | simpl; lia | ].
  exists w'. split; [exact E | ].
  exact (solve_solution_length 3 rookKnightRook w' [0; 1; 2]%nat E).
Defined.

Lemma solve_prints_legal_captures_witness :
  allocated rookKnightRook [0; 1; 2]%nat
  /\ distinctPositions (objects rookKnightRook) [0; 1; 2]%nat
  /\ exists w',
       solve 3 rookKnightRook [0; 1; 2]%nat = Some w'
       /\ exists new,
            console w' = console rookKnightRook ++ new
            /\ forall lines a t,
                 In (LogSolved lines) new ->
                 In (a, t) lines ->
                 Piece.color a <> Piece.color t
                 /\ Piece.position a <> Piece.position t.
Proof.
  assert (A : allocated rookKnightRook [0; 1; 2]%nat) by (repeat constructor).
  split; [exact A | split; [exact rookKnightRook_distinct | ]].
  destruct (solveRecursive_enough_depth 3 rookKnightRook [0; 1; 2]%nat [] White)
    as [w' E]; [lia | simpl; lia | ].
  exists w'. split; [exact E | ].
  exact (solve_prints_legal_captures 3 rookKnightRook w' [0; 1; 2]%nat
           A rookKnightRook_distinct E).
Defined.

(** ** The search: every capture succeeds and every branch is counted *)

Lemma searchPost_tally (n : nat) (w w' : World) :
  searchPost n w w' -> (tally w <= tally w')%nat.
Proof. intros (_ & new & _ & S & D & _). unfold tally. lia. Qed.

Lemma noFailPost_refl (w : World) : noFailPost w w.
Proof. exists []. rewrite app_nil_r. split; [reflexivity | intros []]. Qed.

Lemma noFailPost_trans (w1 w2 w3 : World) :
  noFailPost w1 w2 -> noFailPost w2 w3 -> noFailPost w1 w3.
Proof.
  intros (n1 & E1 & G1) (n2 & E2 & G2). exists (n1 ++ n2).
  rewrite E2, E1, app_assoc. split; [reflexivity | ].
  intros I. apply in_app_or in I. destruct I; auto.
Qed.

Lemma removeTarget_shorter (h : Heap) (capture : Capture) (pieces : Board) (l : loc) :
  In l pieces ->
  Piece.position (h l) = Piece.position (h (target capture)) ->
  List.length pieces = S (List.length (removeTarget h capture pieces)).
Proof.
  induction pieces as [ | p ps IH]; intros I P; [destruct I | ].
  cbn [removeTarget].
  destruct (String.eqb_spec (Piece.position (h p)) (Piece.position (h (target capture))))
    as [E | N]; [reflexivity | ].
  destruct I as [<- | I]; [contradiction | ].
  cbn [List.length]. rewrite (IH I P). reflexivity.
Qed.

(** A capture whose target is a piece of the board succeeds on the clone:
    the copy of the target stands where the target stands. *)
Lemma clone_apply_true (w w1 : World) (this newBoard newBoard2 : Board)
    (capture : Capture) (h2 : Heap) (result : bool) :
  allocated w this ->
  In (target capture) this ->
  Board_clone w this = (w1, newBoard) ->
  applyCapture (objects w1) newBoard capture = (h2, newBoard2, result) ->
  result = true.
Proof.
  intros A It C E.
  destruct (Board_clone_spec _ _ _ _ C) as (_ & _ & B3 & _).
  pose proof (Board_clone_copies _ _ _ _ A C) as M.
  destruct (map_eq_In _ _ _ _ _ M It) as (t' & It' & Et).
  assert (Lt : (target capture < nextLoc w)%nat).
  { unfold allocated in A. rewrite Forall_forall in A. apply A. exact It. }
  unfold applyCapture in E. injection E as _ _ <-.
  apply Z.eqb_eq.
  rewrite (removeTarget_shorter (objects w1) capture newBoard t' It').
  - lia.
  - rewrite Et, B3 by assumption. reflexivity.
Qed.

Section SearchTally.
Variable n : nat.
Variable recurse : World -> Board -> list Capture -> Color -> option World.
Hypothesis recurse_post : recursePost n recurse.
Hypothesis recurse_counts : recurseCounts recurse.
Variable this : Board.
Variable history : list Capture.
Variable turnColor : Color.
Hypothesis pieces_and_captures : (List.length history + List.length this)%nat = n.

Lemma forEachCapture_counted (captures : list Capture) :
  forall w w',
    forEachCapture recurse this history turnColor captures w = Some w' ->
    allocated w this ->
    Forall (captureOnBoard w this) captures ->
    noFailPost w w' /\ (captures <> [] -> (tally w < tally w')%nat).
Proof.
  induction captures as [ | capture rest IH]; intros w w' E A F.
  - cbn [forEachCapture] in E. injection E as <-.
    split; [apply noFailPost_refl | intros N; contradiction].
  - apply Forall_cons_iff in F. destruct F as [Fc F].
    assert (Step : exists w3,
               forEachCapture recurse this history turnColor [capture] w = Some w3
               /\ forEachCapture recurse this history turnColor rest w3 = Some w'
               /\ countedPost w w3).
    { cbn [forEachCapture] in E |- *.
      destruct (Board_clone w this) as [w1 newBoard] eqn:C.
      destruct (applyCapture (objects w1) newBoard capture)
        as [[h2 newBoard2] result] eqn:Ap.
      destruct Fc as (_ & It & _).
      pose proof (clone_apply_true _ _ _ _ _ _ _ _ A It C Ap) as ->.
      destruct (clone_apply_frame _ _ _ _ _ _ _ _ C Ap) as (_ & K2 & S2 & D2).
      destruct (clone_apply_extends _ _ _ _ _ _ _ _ C Ap) as (_ & A2).
      cbv zeta in E |- *.
      destruct (recurse _ _ _ _) as [w3 | ] eqn:R; [ | discriminate].
      exists w3. split; [reflexivity | split; [exact E | ]].
      destruct (recurse_counts _ _ _ _ _ R A2) as ((new & K3 & G3) & T3).
      split; [exists new; rewrite K3, K2; split; [reflexivity | exact G3] | ].
      unfold tally in *. lia. }
    destruct Step as (w3 & E1 & E2 & P3 & T3).
    pose proof (forEachCapture_post n recurse recurse_post this history turnColor
                  pieces_and_captures _ _ _ E1) as (F3 & _).
    destruct (IH _ _ E2) as [P T].
    + exact (frame_allocated _ _ _ F3 A).
    + rewrite Forall_forall in *. intros c Ic.
      exact (frame_captureOnBoard _ _ _ _ F3 A (F c Ic)).
    + split; [exact (noFailPost_trans _ _ _ P3 P) | intros _].
      pose proof (searchPost_tally _ _ _
                    (forEachCapture_post n recurse recurse_post this history turnColor
                       pieces_and_captures _ _ _ E2)) as T2.
      lia.
Qed.

Lemma forEachPiece_counted (pieces : Board) :
  forall w movePossible w' movePossible',
    forEachPiece recurse this history turnColor pieces w movePossible
    = Some (w', movePossible') ->
    incl pieces this ->
    allocated w this ->
    noFailPost w w'
    /\ (movePossible' = true -> movePossible = true \/ (tally w < tally w')%nat).
Proof.
  induction pieces as [ | piece rest IH]; intros w mp w' mp' E I A;
    cbn [forEachPiece] in E.
  - injection E as <- <-. split; [apply noFailPost_refl | intros T; left; exact T].
  - assert (Ir : incl rest this) by (intros l Il; apply I; right; exact Il).
    destruct (Color_eqb _ _); [ | exact (IH _ _ _ _ E Ir A)].
    destruct (forEachCapture _ _ _ _ _ _) as [w1 | ] eqn:Q; [ | discriminate].
    pose proof (forEachCapture_post n recurse recurse_post this history turnColor
                  pieces_and_captures _ _ _ Q) as P1.
    assert (Fc : Forall (captureOnBoard w this)
                        (getPossibleCaptures (objects w) this piece)).
    { apply Forall_forall. intros c Ic.
      apply (getPossibleCaptures_onBoard w this piece c); [ | exact Ic].
      apply I. left. reflexivity. }
    destruct (forEachCapture_counted _ _ _ Q A Fc) as [N1 T1].
    destruct P1 as (F1 & P1').
    destruct (IH _ _ _ _ E Ir (frame_allocated _ _ _ F1 A)) as [N2 T2].
    split; [exact (noFailPost_trans _ _ _ N1 N2) | ].
    intros T. pose proof (searchPost_tally _ _ _
                            (forEachPiece_post n recurse recurse_post this history
                               turnColor pieces_and_captures _ _ _ _ _ E)) as M2.
    destruct (getPossibleCaptures (objects w) this piece) as [ | c cs] eqn:G.
    + cbn [forEachCapture] in Q. injection Q as <-. cbn in T2. exact (T2 T).
    + right. assert ((tally w < tally w1)%nat) by (apply T1; discriminate). lia.
Qed.
End SearchTally.

Lemma solveRecursive_counted (depth : nat) : recurseCounts (solveRecursive depth).
Proof.
  induction depth as [ | depth IH]; intros w this history turnColor w' E A;
    cbn [solveRecursive] in E; [discriminate | ].
  destruct (Nat.eqb (List.length this) 1).
  - injection E as <-. split; [ | unfold tally; cbn; lia].
    exists [LogSolved (printHistory (objects w) history)]. split; [reflexivity | ].
    intros [Q | []]. discriminate Q.
  - destruct (forEachPiece _ _ _ _ _ _ _) as [[w1 mp] | ] eqn:Q; [ | discriminate].
    pose proof (searchPost_tally _ _ _
                  (forEachPiece_post _ _ (solveRecursive_post depth _)
                     this history turnColor eq_refl _ _ _ _ _ Q)) as T1.
    destruct (forEachPiece_counted _ _ (solveRecursive_post depth _) IH
                this history turnColor eq_refl this _ _ _ _ Q (incl_refl this) A)
      as [N T].
    injection E as <-. destruct mp; cbn [negb].
    + split; [exact N | ].
      destruct (T eq_refl) as [C | T']; [discriminate C | exact T'].
    + split; [exact N | unfold tally in *; cbn; lia].
Qed.

(** X18: on a board whose references point to existing objects, every
    capture that the search applies succeeds, also when pieces share a
    square: ['Move failed'] is never printed. *)
Theorem solve_never_prints_move_failed (depth : nat) (w w' : World) (this : Board) :
  allocated w this ->
  solve depth w this = Some w' ->
  exists new,
    console w' = console w ++ new /\ ~ In LogMoveFailed new.
Proof.
  intros A E. exact (proj1 (solveRecursive_counted depth _ _ _ _ _ E A)).
Qed.

Lemma solve_never_prints_move_failed_witness :
  allocated rookKnightRook [0; 1; 2]%nat
  /\ exists w',
       solve 3 rookKnightRook [0; 1; 2]%nat = Some w'
       /\ exists new,
            console w' = console rookKnightRook ++ new /\ ~ In LogMoveFailed new.
Proof.
  assert (A : allocated rookKnightRook [0; 1; 2]%nat) by (repeat constructor).
  split; [exact A | ].
  destruct (solveRecursive_enough_depth 3 rookKnightRook [0; 1; 2]%nat [] White)
    as [w' E]; [lia | simpl; lia | ].
  exists w'. split; [exact E | ].
  exact (solve_never_prints_move_failed 3 rookKnightRook w' [0; 1; 2]%nat A E).
Defined.

(** X21: on a board whose references point to existing objects, no branch
    of the search is dropped without being counted: every call of [solve]
    adds at least one to the solutions or to the dead ends. *)
Theorem solve_counts_every_branch (depth : nat) (w w' : World) (this : Board) :
  allocated w this ->
  solve depth w this = Some w' ->
  (solutionsCount w + deadEndCount w < solutionsCount w' + deadEndCount w')%nat.
Proof.
  intros A E. exact (proj2 (solveRecursive_counted depth _ _ _ _ _ E A)).
Qed.

Lemma solve_counts_every_branch_witness :
  allocated rookKnightRook [0; 1; 2]%nat
  /\ exists w',
       solve 3 rookKnightRook [0; 1; 2]%nat = Some w'
       /\ (solutionsCount rookKnightRook + deadEndCount rookKnightRook
           < solutionsCount w' + deadEndCount w')%nat.
Proof.
  assert (A : allocated rookKnightRook [0; 1; 2]%nat) by (repeat constructor).
  split; [exact A | ].
  destruct (solveRecursive_enough_depth 3 rookKnightRook [0; 1; 2]%nat [] White)
    as [w' E]; [lia | simpl; lia | ].
  exists w'. split; [exact E | ].
  exact (solve_counts_every_branch 3 rookKnightRook w' [0; 1; 2]%nat A E).
Defined.

(** ** The side to move without an enemy *)

(** X20: when the pieces of the board are all of the color to move, or
    none of them is, and the board does not hold exactly one piece, the
    call is a dead end and nothing else: exactly one is added to the
    dead-end counter, the solutions counter is as it was, nothing is
    printed, no object is created and none is changed, at any depth bound,
    so without a recursive call.  The empty board is such a board. *)
Theorem solveRecursive_without_enemy (w : World) (this : Board)
    (history : list Capture) (turnColor : Color) (depth : nat) :
  (forall l, In l this -> Piece.color (objects w l) = turnColor)
  \/ (forall l, In l this -> Piece.color (objects w l) <> turnColor) ->
  List.length this <> 1%nat ->
  solveRecursive (S depth) w this history turnColor = Some (incrDeadEnd w)
  /\ exists w',
       solveRecursive (S depth) w this history turnColor = Some w'
       /\ deadEndCount w' = S (deadEndCount w)
       /\ solutionsCount w' = solutionsCount w
       /\ console w' = console w
       /\ nextLoc w' = nextLoc w
       /\ forall l, objects w' l = objects w l.
Proof.
  intros H L.
  assert (R : solveRecursive (S depth) w this history turnColor = Some (incrDeadEnd w)).
  { rewrite solveRecursive_unfold.
    destruct (Nat.eqb_spec (List.length this) 1) as [E | _]; [contradiction | ].
    rewrite forEachPiece_without_captures; [reflexivity | ].
    intros piece Ip Cp.
    destruct (getPossibleCaptures (objects w) this piece) as [ | c cs] eqn:G;
      [reflexivity | ].
    exfalso.
    assert (I : In c (getPossibleCaptures (objects w) this piece))
      by (rewrite G; left; reflexivity).
    destruct (getPossibleCaptures_onBoard w this piece c Ip I) as (Ia & It & C).
    apply getPossibleCaptures_inv in I.
    destruct I as (_ & _ & t & _ & _ & _ & _ & _ & ->). cbn [attacker target] in *.
    destruct H as [H | H].
    - apply C. rewrite (H _ Ia), (H _ It). reflexivity.
    - exact (H _ Ip Cp). }
  split; [exact R | ].
  exists (incrDeadEnd w). split; [exact R | ].
  cbn. repeat split.
Qed.

Lemma solveRecursive_without_enemy_witness :
  ((forall l, In l [0; 1]%nat -> Piece.color (threePieces l) = White)
   \/ (forall l, In l [0; 1]%nat -> Piece.color (threePieces l) <> White))
  /\ List.length [0; 1]%nat <> 1%nat
  /\ solveRecursive 1 (mkWorld threePieces 3 O O []) [0; 1]%nat [] White
     = Some (incrDeadEnd (mkWorld threePieces 3 O O []))
  /\ exists w',
       solveRecursive 1 (mkWorld threePieces 3 O O []) [0; 1]%nat [] White = Some w'
       /\ deadEndCount w' = 1%nat
       /\ solutionsCount w' = O
       /\ console w' = []
       /\ nextLoc w' = 3%nat
       /\ forall l, objects w' l = threePieces l.
Proof.
  assert (H : (forall l, In l [0; 1]%nat -> Piece.color (threePieces l) = White)
              \/ (forall l, In l [0; 1]%nat -> Piece.color (threePieces l) <> White)).
  { left. intros l [<- | [<- | []]]; reflexivity. }
  assert (L : List.length [0; 1]%nat <> 1%nat) by discriminate.
  split; [exact H | split; [exact L | ]].
  exact (solveRecursive_without_enemy (mkWorld threePieces 3 O O []) [0; 1]%nat []
           White O H L).
Defined.

(** ** Captures between pieces of the same type, and repeated captures *)

Lemma moveOptions_opposite (type : PieceType) (c c' : Color) (move : Move.t) :
  c <> c' ->
  In move (moveOptions type c) ->
  In (Move.mk (- Move.directionX move) (- Move.directionY move) (Move.type move))
     (moveOptions type c').
Proof.
  intros N Im.
  destruct type, c, c'; try congruence; cbn [moveOptions In] in Im;
    repeat (destruct Im as [Im | Im]; [subst move; simpl; auto 10 | ]);
    contradiction.
Qed.

Lemma moveOptions_NoDup (type : PieceType) (color : Color) :
  NoDup (moveOptions type color).
Proof.
  destruct type, color; cbn [moveOptions];
    repeat (apply NoDup_cons;
            [cbn [In]; intros H;
             repeat (destruct H as [H | H]; [discriminate H | ]); exact H | ]);
    apply NoDup_nil.
Qed.

(** X10: capture is mutual between pieces of the same type.  On a board
    with pairwise distinct positions, when a piece of the board standing on
    a valid square can capture a piece of the same type, that piece can
    capture it as well. *)
Theorem getPossibleCaptures_mutual (h : Heap) (board : Board) (a b : loc) :
  distinctPositions h board ->
  In a board ->
  validLabel (Piece.position (h a)) ->
  Piece.type (h a) = Piece.type (h b) ->
  In (mkCapture a b) (getPossibleCaptures h board a) ->
  In (mkCapture b a) (getPossibleCaptures h board b).
Proof.
  intros D Ia V Ty I. apply getPossibleCaptures_inv in I.
  destruct I as (move & i & t & Im & Ii & (p & P & Q) & F & C & Ec).
  injection Ec as <-.
  apply validLabel_encode in V. destruct V as (x & y & B & Ea).
  rewrite Ea, calculatePosition_encode in P by assumption. cbv zeta in P.
  destruct (inRange _ _) eqn:R; [ | discriminate]. apply inRange_onBoard in R.
  apply (f_equal (fun o => match o with Some s => s | None => EmptyString end)) in P.
  cbv beta iota in P.
  pose proof Q as Q'. apply findPiece_Some_lastAt in Q'.
  destruct Q' as (_ & _ & _ & Pb & _). rewrite <- P in Pb.
  pose proof (stepsOf_positive _ _ Ii) as Hi.
  apply (getPossibleCaptures_intro h board b
           (Move.mk (- Move.directionX move) (- Move.directionY move) (Move.type move))
           i a).
  - rewrite <- Ty. apply (moveOptions_opposite _ (Piece.color (h a))); [ | exact Im].
    intros E. apply C. symmetry. exact E.
  - exact Ii.
  - exists (Piece.position (h a)). split; [ | apply findPiece_own; assumption].
    rewrite Pb, calculatePosition_encode by assumption. cbv zeta.
    cbn [Move.directionX Move.directionY].
    replace (x + i * Move.directionX move + i * - Move.directionX move) with x by lia.
    replace (y + i * Move.directionY move + i * - Move.directionY move) with y by lia.
    rewrite (proj2 (inRange_onBoard x y) B), Ea. reflexivity.
  - intros j t' Hj (q & Pq & Qq). apply (F (i - j) t'); [lia | ].
    exists q. split; [ | exact Qq].
    rewrite Pb, calculatePosition_encode in Pq by assumption. cbv zeta in Pq.
    cbn [Move.directionX Move.directionY] in Pq.
    rewrite Ea, calculatePosition_encode by assumption. cbv zeta.
    replace (x + (i - j) * Move.directionX move)
      with (x + i * Move.directionX move + j * - Move.directionX move) by lia.
    replace (y + (i - j) * Move.directionY move)
      with (y + i * Move.directionY move + j * - Move.directionY move) by lia.
    exact Pq.
  - intros E. apply C. symmetry. exact E.
Qed.

(** Two rooks of different colors on the a-file, with nothing between. *)
Lemma getPossibleCaptures_mutual_witness :
  distinctPositions (objects rookKnightRook) [0; 2]%nat
  /\ validLabel (Piece.position (objects rookKnightRook 0%nat))
  /\ In (mkCapture 0 2) (getPossibleCaptures (objects rookKnightRook) [0; 2]%nat 0%nat)
  /\ In (mkCapture 2 0) (getPossibleCaptures (objects rookKnightRook) [0; 2]%nat 2%nat).
Proof.
  assert (D : distinctPositions (objects rookKnightRook) [0; 2]%nat).
  { unfold distinctPositions. vm_compute.
    repeat (apply NoDup_cons; [simpl; intuition discriminate | ]). apply NoDup_nil. }
  assert (V : validLabel (Piece.position (objects rookKnightRook 0%nat)))
    by (apply validLabelb_spec; reflexivity).
  assert (I : In (mkCapture 0 2)
                 (getPossibleCaptures (objects rookKnightRook) [0; 2]%nat 0%nat))
    by (left; reflexivity).
  split; [exact D | split; [exact V | split; [exact I | ]]].
  apply (getPossibleCaptures_mutual (objects rookKnightRook) [0; 2]%nat 0%nat 2%nat D);
    [left; reflexivity | exact V | reflexivity | exact I].
Defined.

(** Two directions of a move table that push captures of the same target
    are the same direction. *)
Lemma capture_direction_unique (h : Heap) (board : Board) (this : loc)
    (m1 m2 : Move.t) (c1 c2 : Capture) :
  validLabel (Piece.position (h this)) ->
  In m1 (moveOptions (Piece.type (h this)) (Piece.color (h this))) ->
  In m2 (moveOptions (Piece.type (h this)) (Piece.color (h this))) ->
  In c1 (capturesForMove h board this m1) ->
  In c2 (capturesForMove h board this m2) ->
  target c1 = target c2 ->
  m1 = m2.
Proof.
  intros V I1 I2 C1 C2 E.
  apply capturesForMove_inv in C1, C2.
  destruct C1 as (i1 & t1 & Ii1 & (p1 & P1 & Q1) & _ & _ & ->).
  destruct C2 as (i2 & t2 & Ii2 & (p2 & P2 & Q2) & _ & _ & ->).
  cbn [target] in E. subst t2.
  apply findPiece_Some_lastAt in Q1, Q2.
  destruct Q1 as (_ & _ & _ & T1 & _). destruct Q2 as (_ & _ & _ & T2 & _).
  apply validLabel_encode in V. destruct V as (x & y & B & Ea).
  rewrite Ea, calculatePosition_encode in P1, P2 by assumption. cbv zeta in P1, P2.
  destruct (inRange (x + i1 * _) _) eqn:R1; [ | discriminate].
  destruct (inRange (x + i2 * _) _) eqn:R2; [ | discriminate].
  apply inRange_onBoard in R1, R2.
  assert (Q : encode (x + i1 * Move.directionX m1) (y + i1 * Move.directionY m1)
              = encode (x + i2 * Move.directionX m2) (y + i2 * Move.directionY m2))
    by congruence.
  apply encode_inj in Q; try assumption. destruct Q as [Qx Qy].
  pose proof (moveOptions_reach_once _ _ m1 i1 I1 Ii1) as U.
  assert (M : In m2 (filter (fun m => reaches m (i1 * Move.directionX m1)
                                              (i1 * Move.directionY m1))
                            (moveOptions (Piece.type (h this)) (Piece.color (h this))))).
  { apply filter_In. split; [exact I2 | ].
    unfold reaches. apply existsb_exists. exists i2. split; [exact Ii2 | ].
    unfold hit. apply andb_true_intro. split; apply Z.eqb_eq; lia. }
  rewrite U in M. destruct M as [M | []]. exact M.
Qed.

(** X9: from a valid square a piece never has two captures of the same
    target: the list that [getPossibleCaptures] returns has no capture
    twice, so the search explores each capture of a piece once. *)
Theorem getPossibleCaptures_no_duplicates (h : Heap) (board : Board) (this : loc) :
  validLabel (Piece.position (h this)) ->
  NoDup (map target (getPossibleCaptures h board this))
  /\ NoDup (getPossibleCaptures h board this).
Proof.
  intros V.
  assert (T : NoDup (map target (getPossibleCaptures h board this))).
  { unfold getPossibleCaptures.
    pose proof (moveOptions_NoDup (Piece.type (h this)) (Piece.color (h this))) as ND.
    assert (G : forall moves,
               NoDup moves ->
               incl moves (moveOptions (Piece.type (h this)) (Piece.color (h this))) ->
               NoDup (map target (flat_map (capturesForMove h board this) moves))).
    { induction moves as [ | m ms IH]; intros NDm Inc; [constructor | ].
      apply NoDup_cons_iff in NDm. destruct NDm as [Nm NDm].
      cbn [flat_map]. rewrite map_app. apply NoDup_app.
      - assert (S : (List.length (capturesForMove h board this m) <= 1)%nat).
        { unfold capturesForMove, jumpCaptures, slideCaptures. destruct (Move.type m).
          - destruct (calculatePosition _ m 1) as [p | ]; [ | cbn; lia].
            destruct (findPiece h board p); [ | cbn; lia].
            destruct (negb _); cbn; lia.
          - apply slideLoop_short. }
        destruct (capturesForMove h board this m) as [ | c [ | c' cs]];
          cbn in S |- *; [constructor | | lia].
        constructor; [intros [] | constructor].
      - apply IH; [exact NDm | ]. intros x Ix. apply Inc. right. exact Ix.
      - intros t I1 I2. apply in_map_iff in I1, I2.
        destruct I1 as (c1 & E1 & I1). destruct I2 as (c2 & E2 & I2).
        apply in_flat_map in I2. destruct I2 as (m2 & Im2 & I2).
        apply Nm.
        rewrite (capture_direction_unique h board this m m2 c1 c2 V); try assumption.
        + apply Inc. left. reflexivity.
        + apply Inc. right. exact Im2.
        + congruence. }
    apply G; [exact ND | apply incl_refl]. }
  split; [exact T | exact (NoDup_map_inv _ _ T)].
Qed.

Lemma getPossibleCaptures_no_duplicates_witness :
  validLabel (Piece.position (rookFile false 0%nat))
  /\ NoDup (map target (getPossibleCaptures (rookFile false) [0; 1; 2]%nat 0%nat))
  /\ NoDup (getPossibleCaptures (rookFile false) [0; 1; 2]%nat 0%nat).
Proof.
  assert (V : validLabel (Piece.position (rookFile false 0%nat)))
    by (apply validLabelb_spec; reflexivity).
  split; [exact V | ].
  exact (getPossibleCaptures_no_duplicates (rookFile false) [0; 1; 2]%nat 0%nat V).
Defined.
